(** * Tic-tac-toe (src/App.js): a shallow embedding and its properties

    The React components of [src/App.js] are embedded as follows.

    - A square holds [null], ['X'] or ['O']; reading past the end of an
      array gives [undefined].  Values are the type [value].
    - Arrays are objects: a [squares] array is a location in a [heap], so
      that [squares.slice()] allocates and [nextSquares[i] = ...] writes
      in place.  What is shared and what is copied is then visible.
    - [Board] receives its [onPlay] callback as a function on the heap
      and the state of whoever owns the callback.
    - [Game] holds the two [useState] cells, [history] and [currentMove]. *)

From Stdlib Require Import ZArith Lia.
From stdpp Require Import base option list strings pretty.

Open Scope string_scope.
Open Scope list_scope.
Open Scope Z_scope.

(** ** Values and the JavaScript operators the program applies to them *)

Inductive value : Type :=
  | Null
  | Undefined
  | Str (s : string).

#[global] Instance value_eq_dec : EqDecision value.
Proof. solve_decision. Defined.

(** [if (v)]: [null], [undefined] and the empty string are falsy. *)
Definition truthy (v : value) : bool :=
  match v with
  | Str (String _ _) => true
  | _ => false
  end.

(** [v === w] *)
Definition strict_eq (v w : value) : bool := bool_decide (v = w).

(** [v || w] *)
Definition js_or (v w : value) : value := if truthy v then v else w.

(** The string a value becomes on the right of ['...' + v]. *)
Definition to_string (v : value) : string :=
  match v with
  | Null => "null"
  | Undefined => "undefined"
  | Str s => s
  end.

(** ['...' + v] *)
Definition js_add (s : string) (v : value) : string := s +:+ to_string v.

(** ** Arrays *)

(** [arr[i]]: [undefined] out of range. *)
Definition get (arr : list value) (i : nat) : value :=
  default Undefined (arr !! i).

(** [arr[i] = v].  An array index is at most 2^32 - 2.  For such an [i],
    in range the slot is overwritten; past the end the array grows, and the
    slots in between are holes, which read [undefined].  A larger [i] is no
    array index: the write makes an ordinary property of the array object
    and leaves its length and its slots alone.  Lists hold the slots only,
    so this case has no result here ([None]). *)
Definition set (arr : list value) (i : nat) (v : value)
  : option (list value) :=
  if decide (Z.of_nat i ≤ 4294967294) then
    if decide (i < length arr)%nat then Some (<[i := v]> arr)
    else Some (arr ++ replicate (i - length arr) Undefined ++ [v])
  else None.

(** [arr[k]] for an integer [k] that may be negative. *)
Definition get_Z {A : Type} (arr : list A) (k : Z) : option A :=
  if k <? 0 then None else arr !! Z.to_nat k.

(** [arr.slice(0, e)]: a negative [e] counts from the end, and the bound is
    clamped to the array. *)
Definition slice0 {A : Type} (arr : list A) (e : Z) : list A :=
  let len := Z.of_nat (length arr) in
  let k := if e <? 0 then Z.max (len + e) 0 else Z.min e len in
  take (Z.to_nat k) arr.

(** ** calculateWinner *)

Definition lines : list (nat * nat * nat) :=
  [ (0, 1, 2); (3, 4, 5); (6, 7, 8);
    (0, 3, 6); (1, 4, 7); (2, 5, 8);
    (0, 4, 8); (2, 4, 6) ]%nat.

(** The body of the [for] loop, and the loop over the lines still to scan. *)
Definition line_hit (squares : list value) (l : nat * nat * nat) : bool :=
  let '(a, b, c) := l in
  truthy (get squares a)
  && strict_eq (get squares a) (get squares b)
  && strict_eq (get squares a) (get squares c).

Fixpoint scan (ls : list (nat * nat * nat)) (squares : list value) : value :=
  match ls with
  | [] => Null
  | l :: rest =>
      if line_hit squares l then get squares (l.1.1) else scan rest squares
  end.

Definition calculateWinner (squares : list value) : value :=
  scan lines squares.

(** ** The heap of arrays *)

Abbreviation loc := nat (only parsing).
Abbreviation heap := (list (list value)) (only parsing).

(** A new array object: the next free location. *)
Definition alloc (h : heap) (arr : list value) : loc * heap :=
  (length h, h ++ [arr]).

(** [r[i] = v] on the array object at [r]. *)
Definition store (h : heap) (r : loc) (i : nat) (v : value) : option heap :=
  arr ← h !! r; arr' ← set arr i v; Some (<[r := arr']> h).

(** ** Board *)

(** [xIsNext ? 'X' : 'O'] *)
Definition nextPlayer (xIsNext : bool) : value :=
  if xIsNext then Str "X" else Str "O".

Section Board.
Context {W : Type}.
Variable xIsNext : bool.
Variable squares : loc.
Variable onPlay : loc → heap → W → option (heap * W).

(** [None] stands for the TypeError of reading a square of something that
    is not an array, and for the write that [set] has no result for. *)
Definition handleClick (i : nat) (h : heap) (w : W) : option (heap * W) :=
  sq ← h !! squares;
  if truthy (js_or (calculateWinner sq) (get sq i)) then Some (h, w)
  else
    let '(nextSquares, h1) := alloc h sq in
    h2 ← store h1 nextSquares i (nextPlayer xIsNext);
    onPlay nextSquares h2 w.

End Board.

(** The status line that [Board] renders. *)
Definition status (xIsNext : bool) (sq : list value) : string :=
  let winner := calculateWinner sq in
  if truthy winner then js_add "Winner: " winner
  else js_add "Next player: " (nextPlayer xIsNext).

(** ** Game *)

Record Game : Type := mkGame {
  history : list loc;
  currentMove : Z
}.

(** [currentMove % 2 === 0]; [%] truncates, like [Z.rem]. *)
Definition xIsNext_of (g : Game) : bool := Z.rem (currentMove g) 2 =? 0.

(** [history[currentMove]] *)
Definition currentSquares (g : Game) : option loc :=
  get_Z (history g) (currentMove g).

(** [handlePlay] closes over the [history] and [currentMove] of the render
    that created it, here [g], and sets both state cells. *)
Definition handlePlay (g : Game) (nextSquares : loc) (h : heap) (_ : Game)
  : option (heap * Game) :=
  let nextHistory := slice0 (history g) (currentMove g + 1) ++ [nextSquares] in
  Some (h, mkGame nextHistory (Z.of_nat (length nextHistory) - 1)).

Definition jumpTo (nextMove : Z) (g : Game) : Game :=
  mkGame (history g) nextMove.

(** The initial state: [useState([Array(9).fill(null)])], [useState(0)]. *)
Definition empty_board : list value := replicate 9 Null.

Definition init : heap * Game :=
  let '(r, h) := alloc [] empty_board in (h, mkGame [r] 0).

(** A click on square [i] of the rendered game.  With [currentSquares]
    undefined, rendering [Board] throws in [calculateWinner] and there is no
    square to click. *)
Definition click (i : nat) (σ : heap * Game) : option (heap * Game) :=
  let '(h, g) := σ in
  squares ← currentSquares g;
  handleClick (xIsNext_of g) squares (handlePlay g) i h g.

Definition jump (k : Z) (σ : heap * Game) : heap * Game :=
  (σ.1, jumpTo k σ.2).

(** ** Snapshots, as the specification speaks of them *)

Definition mark (v : value) : Prop := v = Str "X" ∨ v = Str "O".
Definition slot (v : value) : Prop := v = Null ∨ mark v.

(** Nine slots, each empty or holding a mark. *)
Definition snapshot (b : list value) : Prop :=
  length b = 9%nat ∧ Forall slot b.

#[global] Instance mark_dec v : Decision (mark v).
Proof. unfold mark. apply _. Defined.

#[global] Instance slot_dec v : Decision (slot v).
Proof. unfold slot. apply _. Defined.

#[global] Instance snapshot_dec b : Decision (snapshot b).
Proof. unfold snapshot. apply _. Defined.

(** The three positions of the triple [l] all hold the mark [m]. *)
Definition complete (b : list value) (l : nat * nat * nat) (m : value) : Prop :=
  mark m ∧ b !! l.1.1 = Some m ∧ b !! l.1.2 = Some m ∧ b !! l.2 = Some m.

(** [cur] is [prev] with exactly one slot changed, from empty to a mark. *)
Definition one_move (prev cur : list value) : Prop :=
  ∃ j, prev !! j = Some Null
       ∧ (∃ m, mark m ∧ cur !! j = Some m)
       ∧ ∀ j', j' ≠ j → cur !! j' = prev !! j'.

(** ** Sessions *)

(** What the rendered page lets the user do: click one of the nine squares,
    or one of the buttons that [history.map] made, one per entry. *)
Inductive reachable : heap * Game → Prop :=
  | reachable_init : reachable init
  | reachable_click σ σ' i :
      reachable σ → (i < 9)%nat → click i σ = Some σ' → reachable σ'
  | reachable_jump σ k :
      reachable σ → 0 ≤ k < Z.of_nat (length (history σ.2)) →
      reachable (jump k σ).

(** [plays k σ]: [σ] is reached from the start by clicks alone, [k] of which
    were moves; the others were rejected and left the state as it was. *)
Inductive plays : nat → heap * Game → Prop :=
  | plays_start : plays 0 init
  | plays_move k σ σ' i :
      plays k σ → (i < 9)%nat → click i σ = Some σ' → σ' ≠ σ →
      plays (S k) σ'
  | plays_rejected k σ i :
      plays k σ → (i < 9)%nat → click i σ = Some σ → plays k σ.

(** The history of a session, read through the heap. *)
Definition board_at (σ : heap * Game) (k : nat) : option (list value) :=
  r ← history σ.2 !! k; σ.1 !! r.

Definition X : value := Str "X".
Definition O : value := Str "O".

(** The callback that only counts how often it is called. *)
Definition count_calls (_ : loc) (h : heap) (n : nat) : option (heap * nat) :=
  Some (h, S n).

(** The callback that throws whenever it is called. *)
Definition never_called (_ : loc) (h : heap) (n : nat) : option (heap * nat) :=
  None.

(** The events of a session, and a session run from a state.  A square has
    an index below nine, and there is one jump button per entry of
    [history]; other events do not exist on the page. *)
Inductive event : Type :=
  | Click (i : nat)
  | JumpTo (k : Z).

Definition step (e : event) (σ : heap * Game) : option (heap * Game) :=
  match e with
  | Click i => if decide (i < 9)%nat then click i σ else None
  | JumpTo k =>
      if decide (0 ≤ k < Z.of_nat (length (history σ.2)))
      then Some (jump k σ) else None
  end.

Fixpoint run (es : list event) (σ : heap * Game) : option (heap * Game) :=
  match es with
  | [] => Some σ
  | e :: es' => σ' ← step e σ; run es' σ'
  end.

(** The snapshot on display. *)
Definition current_board (σ : heap * Game) : option (list value) :=
  r ← currentSquares σ.2; σ.1 !! r.

(** ** What every reachable state satisfies *)

(** [currentMove] points into [history], and every entry of [history] is a
    snapshot on the heap. *)
Definition wf (σ : heap * Game) : Prop :=
  0 ≤ currentMove σ.2 < Z.of_nat (length (history σ.2)) ∧
  ∀ k r, history σ.2 !! k = Some r → ∃ b, σ.1 !! r = Some b ∧ snapshot b.

(** The first entry is the empty board and every later entry is one move
    away from the entry before it. *)
Definition linked (σ : heap * Game) : Prop :=
  board_at σ 0 = Some empty_board ∧
  ∀ k, (1 ≤ k < length (history σ.2))%nat →
       ∃ prev cur, board_at σ (k - 1) = Some prev
                   ∧ board_at σ k = Some cur
                   ∧ one_move prev cur.

(** The state after a move on square [i] of the snapshot [b]. *)
Definition moved (i : nat) (b : list value) (σ : heap * Game) : heap * Game :=
  (σ.1 ++ [<[i := nextPlayer (xIsNext_of σ.2)]> b],
   mkGame (take (S (Z.to_nat (currentMove σ.2))) (history σ.2) ++ [length σ.1])
          (currentMove σ.2 + 1)).

(** ** Boards and sessions used as examples *)

Definition draw_board : list value := [X; O; X; X; O; O; O; X; X].

Definition top_row_board : list value :=
  [X; X; X; O; O; Null; Null; Null; Null].

(** Both outer columns are complete; the left one is scanned first. *)
Definition two_columns_board : list value :=
  [O; Null; X; O; Null; X; O; Null; X].

(** The last move, on square 0, completes the top row and the left column. *)
Definition double_win_board : list value := [X; X; X; X; O; O; X; O; O].

Definition double_win_clicks : list event :=
  [Click 1; Click 4; Click 2; Click 5; Click 3; Click 7; Click 6; Click 8;
   Click 0].

(** X at 0, O at 4, back to move 1, O at 2. *)
Definition session_example : heap * Game :=
  ([ empty_board;
     <[0%nat := X]> empty_board;
     <[4%nat := O]> (<[0%nat := X]> empty_board);
     <[2%nat := O]> (<[0%nat := X]> empty_board) ],
   mkGame [0; 1; 3]%nat 2).

(** X at 0, O at 4. *)
Definition two_moves : heap * Game :=
  ([ empty_board;
     <[0%nat := X]> empty_board;
     <[4%nat := O]> (<[0%nat := X]> empty_board) ],
   mkGame [0; 1; 2]%nat 2).

(** ** What the components render *)

(** [Square]: a button that shows [value] and runs [onSquareClick] when
    clicked.  [Board] passes [() => handleClick(index)]; the button keeps
    the [index]. *)
Record SquareView : Type := mkSquare {
  shown : value;
  onSquareClick : nat
}.

Definition Square (v : value) (index : nat) : SquareView :=
  mkSquare v index.

(** The two nested [Array(3).fill(null).map] of [Board]. *)
Definition Board_rows (sq : list value) : list (list SquareView) :=
  imap (λ row _,
          imap (λ col _,
                  let index := (row * 3 + col)%nat in
                  Square (get sq index) index)
               (replicate 3 Null))
       (replicate 3 Null).

(** [Board]: the status line and the rows.  With [squares] undefined the
    call of [calculateWinner] throws. *)
Definition Board (xIsNext : bool) (squares : option loc) (h : heap)
  : option (string * list (list SquareView)) :=
  r ← squares; sq ← h !! r; Some (status xIsNext sq, Board_rows sq).

(** [move ? 'Go to move #' + move : 'Go to game start'] *)
Definition description (move : nat) : string :=
  match move with
  | 0%nat => "Go to game start"
  | _ => "Go to move #" +:+ pretty move
  end.

(** One button of the list: its text and the index its click passes to
    [jumpTo]. *)
Record MoveButton : Type := mkMove {
  desc : string;
  target : Z
}.

(** [history.map((squares, move) => ...)] *)
Definition moves (g : Game) : list MoveButton :=
  imap (λ move _, mkMove (description move) (Z.of_nat move)) (history g).

(** The page: the board and the list of moves; [None] when rendering
    throws. *)
Definition Game_render (σ : heap * Game)
  : option (string * list (list SquareView) * list MoveButton) :=
  bd ← Board (xIsNext_of σ.2) (currentSquares σ.2) σ.1;
  Some (bd, moves σ.2).

(** ** Counting marks *)

Definition count_mark (m : value) (b : list value) : nat :=
  length (filter (λ v, v = m) b).

(** The player who makes move [k]: X makes the odd moves. *)
Definition mover (k : nat) : value := if Nat.even k then O else X.

(** Entry [k] of the history is entry [k - 1], which has no winner, with
    one empty square given to the player who makes move [k]. *)
Definition played (σ : heap * Game) : Prop :=
  ∀ k, (1 ≤ k < length (history σ.2))%nat →
       ∃ prev j, board_at σ (k - 1) = Some prev
                 ∧ prev !! j = Some Null
                 ∧ calculateWinner prev = Null
                 ∧ board_at σ k = Some (<[j := mover k]> prev).

(** Nine moves that fill the board without a winner, ending on
    [draw_board]. *)
Definition draw_clicks : list event :=
  [Click 0; Click 1; Click 2; Click 4; Click 3; Click 5; Click 7; Click 6;
   Click 8].

(** ** Examples: the embedding evaluated *)

(** The top row for X: the status names the winner and further clicks
    change nothing. *)
Example top_row_session :
  ∃ σ, run [Click 0; Click 4; Click 1; Click 5; Click 2] init = Some σ
       ∧ (status (xIsNext_of σ.2) <$> current_board σ) = Some "Winner: X"
       ∧ click 8 σ = Some σ.
Proof. eexists. split; [reflexivity |]. split; reflexivity. Qed.

(** After three moves, a jump to move 1 shows the first move alone with O
    to move, and a move from there replaces the two snapshots given up. *)
Example jump_back_session :
  ∃ σ σ', run [Click 0; Click 4; Click 1; JumpTo 1] init = Some σ
       ∧ current_board σ = Some (<[0%nat := X]> empty_board)
       ∧ nextPlayer (xIsNext_of σ.2) = O
       ∧ length (history σ.2) = 4%nat
       ∧ click 8 σ = Some σ'
       ∧ length (history σ'.2) = 3%nat
       ∧ current_board σ' = Some (<[8%nat := O]> (<[0%nat := X]> empty_board)).
Proof. eexists _, _. repeat split; reflexivity. Qed.

Example winner_empty : calculateWinner empty_board = Null.
Proof. reflexivity. Qed.

Example winner_top_row :
  calculateWinner [X; X; X; Null; Null; Null; Null; Null; Null] = X.
Proof. reflexivity. Qed.

Example winner_draw : calculateWinner [X; O; X; X; O; O; O; X; X] = Null.
Proof. reflexivity. Qed.

Example set_past_end : set [X] 3 O = Some [X; Undefined; Undefined; O].
Proof. reflexivity. Qed.

Example slice0_negative : slice0 [1; 2; 3] (-1) = [1; 2].
Proof. reflexivity. Qed.

(** ** Facts about values and arrays *)

Lemma mark_truthy v : mark v → truthy v = true.
Proof. by intros [-> | ->]. Qed.

Lemma slot_truthy v : slot v → truthy v = true → mark v.
Proof. by intros [-> | Hm]. Qed.

Lemma get_lookup b i v : b !! i = Some v → get b i = v.
Proof. unfold get. by intros ->. Qed.

Lemma get_truthy_lookup b i : truthy (get b i) = true → b !! i = Some (get b i).
Proof. unfold get. by destruct (b !! i). Qed.

Lemma snapshot_lookup b i v : snapshot b → b !! i = Some v → slot v.
Proof.
  intros [_ Hall] Hi. rewrite Forall_forall in Hall.
  apply Hall. by eapply list_elem_of_lookup_2.
Qed.

Lemma strict_eq_true v w : strict_eq v w = true ↔ v = w.
Proof. unfold strict_eq. by rewrite bool_decide_eq_true. Qed.

(** The loop body fires on exactly the complete triples of a snapshot. *)
Lemma line_hit_complete b l :
  snapshot b → line_hit b l = true ↔ complete b l (get b l.1.1).
Proof.
  intros Hb. destruct l as [[a c] d]; simpl. unfold complete; simpl.
  rewrite !andb_true_iff, !strict_eq_true. split.
  - intros [[Ht Hc] Hd].
    pose proof (get_truthy_lookup _ _ Ht) as Ha.
    assert (truthy (get b c) = true) as Htc by (by rewrite <- Hc).
    assert (truthy (get b d) = true) as Htd by (by rewrite <- Hd).
    apply get_truthy_lookup in Htc, Htd. rewrite <- Hc in Htc. rewrite <- Hd in Htd.
    split_and!; try done.
    apply slot_truthy; [by eapply snapshot_lookup | done].
  - intros (Hm & Ha & Hc & Hd).
    rewrite (get_lookup _ _ _ Hc), (get_lookup _ _ _ Hd).
    split_and!; try done. by apply mark_truthy.
Qed.

Lemma complete_get b l m : complete b l m → get b l.1.1 = m.
Proof. intros (_ & Ha & _). by apply get_lookup. Qed.

Lemma line_miss b l :
  snapshot b → line_hit b l = false ↔ ¬ ∃ m, complete b l m.
Proof.
  intros Hb. rewrite <- not_true_iff_false, line_hit_complete by done. split.
  - intros Hn [m Hm]. apply Hn. by rewrite (complete_get _ _ _ Hm).
  - intros Hn Hc. apply Hn. eauto.
Qed.

(** ** The scan returns the square of the first triple that fires *)

Lemma scan_miss ls b :
  (∀ l, l ∈ ls → line_hit b l = false) → scan ls b = Null.
Proof.
  induction ls as [| l ls IH]; intros Hall; simpl; [done |].
  rewrite Hall by apply list_elem_of_here.
  apply IH. intros l' Hl'. apply Hall. by apply list_elem_of_further.
Qed.

Lemma scan_first ls b n l :
  ls !! n = Some l →
  line_hit b l = true →
  (∀ n' l', (n' < n)%nat → ls !! n' = Some l' → line_hit b l' = false) →
  scan ls b = get b l.1.1.
Proof.
  revert n. induction ls as [| l0 ls IH]; intros n Hn Hhit Hbefore; [done |].
  destruct n as [| n]; simpl in *.
  - injection Hn as ->. by rewrite Hhit.
  - rewrite (Hbefore 0%nat l0) by (done || lia).
    apply (IH n); [done | done |].
    intros n' l' Hlt Hl'. apply (Hbefore (S n') l'); [lia | done].
Qed.

Lemma scan_hit ls b :
  (∃ l, l ∈ ls ∧ line_hit b l = true) →
  ∃ l, l ∈ ls ∧ line_hit b l = true ∧ scan ls b = get b l.1.1.
Proof.
  induction ls as [| l0 ls IH]; intros (l & Hin & Hhit).
  - by apply elem_of_nil in Hin.
  - simpl. destruct (line_hit b l0) eqn:H0.
    + exists l0. split_and!; [apply list_elem_of_here | done | done].
    + apply elem_of_cons in Hin as [-> | Hin]; [congruence |].
      destruct IH as (l' & Hin' & Hhit' & Heq); [by eauto |].
      exists l'. split_and!; [by apply list_elem_of_further | done | done].
Qed.

Lemma scan_result ls b :
  scan ls b = Null ∨
  ∃ l, l ∈ ls ∧ line_hit b l = true ∧ scan ls b = get b l.1.1.
Proof.
  destruct (decide (Exists (λ l, line_hit b l = true) ls)) as [He | Hn].
  - right. apply scan_hit. by apply Exists_exists.
  - left. apply scan_miss. intros l Hl.
    apply not_true_is_false. intros Hhit. apply Hn, Exists_exists. eauto.
Qed.

(** ** calculateWinner on snapshots *)

(** C1. The eight triples are the rows [0,1,2], [3,4,5], [6,7,8], the
    columns [0,3,6], [1,4,7], [2,5,8] and the diagonals [0,4,8], [2,4,6].
    On a snapshot of nine slots, [calculateWinner] returns a mark that
    fills one of these triples whenever one of them is filled by one mark,
    and returns [null] whenever none is, whether the board is full (a draw)
    or not. *)
Theorem calculateWinner_spec (b : list value) :
  let triples := [ (0, 1, 2); (3, 4, 5); (6, 7, 8);
                   (0, 3, 6); (1, 4, 7); (2, 5, 8);
                   (0, 4, 8); (2, 4, 6) ]%nat in
  snapshot b →
  ((∃ l m, l ∈ triples ∧ complete b l m) →
   ∃ l, l ∈ triples ∧ complete b l (calculateWinner b)) ∧
  ((¬ ∃ l m, l ∈ triples ∧ complete b l m) → calculateWinner b = Null) ∧
  (calculateWinner b = Null ∨ calculateWinner b = Str "X"
   ∨ calculateWinner b = Str "O").
Proof.
  intros triples Hb. change triples with lines. clear triples. split_and!.
  2: { intros Hn. apply scan_miss. intros l Hl.
       apply line_miss; [done |]. intros [m Hm]. apply Hn. by exists l, m. }
  2: { destruct (scan_result lines b) as [Hn | (l & _ & Hhit & Heq)];
         [by left | right].
       apply line_hit_complete in Hhit as [Hm _]; [| done].
       unfold calculateWinner. by rewrite Heq. }
  intros (l & m & Hl & Hc).
  destruct (scan_hit lines b) as (l' & Hl' & Hhit & Heq).
  { exists l. split; [done |]. apply line_hit_complete; [done |].
    by rewrite (complete_get _ _ _ Hc). }
  exists l'. split; [done |]. unfold calculateWinner. rewrite Heq.
  by apply line_hit_complete.
Qed.

Lemma calculateWinner_spec_witness :
  (∃ l, l ∈ [ (0, 1, 2); (3, 4, 5); (6, 7, 8);
              (0, 3, 6); (1, 4, 7); (2, 5, 8);
              (0, 4, 8); (2, 4, 6) ]%nat
        ∧ complete two_columns_board l (calculateWinner two_columns_board)) ∧
  calculateWinner draw_board = Null.
Proof.
  split.
  - destruct (calculateWinner_spec two_columns_board) as (Hwin & _ & _);
      [by apply (bool_decide_unpack _) |].
    apply Hwin. exists (2, 5, 8)%nat, X.
    split; [do 5 apply list_elem_of_further; apply list_elem_of_here |].
    split_and!; [by left | done | done | done].
  - destruct (calculateWinner_spec draw_board) as (_ & Hnone & _);
      [by apply (bool_decide_unpack _) |].
    apply Hnone. intros (l & m & Hl & _ & H1 & H2 & H3).
    repeat (apply elem_of_cons in Hl as [-> | Hl]);
      [cbv in H1, H2, H3; congruence .. | by apply elem_of_nil in Hl].
Defined.

(** C9, amended. On a snapshot, [calculateWinner] returns the mark of the
    first complete triple in the order of [lines]: the rows, then the
    columns, then the two diagonals.  Triples that come later do not matter,
    complete or not, and neither does whether play can reach the board. *)
Theorem calculateWinner_earliest (b : list value) (n : nat)
    (l : nat * nat * nat) (m : value) :
  snapshot b →
  lines !! n = Some l →
  complete b l m →
  (∀ n' l' m', (n' < n)%nat → lines !! n' = Some l' → ¬ complete b l' m') →
  calculateWinner b = m ∧
  lines = [ (0, 1, 2); (3, 4, 5); (6, 7, 8);
            (0, 3, 6); (1, 4, 7); (2, 5, 8);
            (0, 4, 8); (2, 4, 6) ]%nat.
Proof.
  intros Hb Hn Hc Hbefore. split; [| done].
  rewrite <- (complete_get _ _ _ Hc). apply (scan_first lines b n l); [done | |].
  - apply line_hit_complete; [done |]. by rewrite (complete_get _ _ _ Hc).
  - intros n' l' Hlt Hl'. apply line_miss; [done |].
    intros [m' Hm']. by apply (Hbefore n' l' m').
Qed.

Lemma calculateWinner_earliest_witness :
  calculateWinner two_columns_board = O ∧
  lines = [ (0, 1, 2); (3, 4, 5); (6, 7, 8);
            (0, 3, 6); (1, 4, 7); (2, 5, 8);
            (0, 4, 8); (2, 4, 6) ]%nat.
Proof.
  apply (calculateWinner_earliest two_columns_board 3 (0, 3, 6)%nat O).
  - by apply (bool_decide_unpack _).
  - reflexivity.
  - split_and!; [by right | done | done | done].
  - intros n' l' m' Hlt Hl' (_ & H1 & H2 & _).
    destruct n' as [| [| [| n']]]; simpl in Hl'; [| | | lia];
      injection Hl' as <-; cbv in H1, H2; congruence.
Defined.

(** ** Board *)

Lemma calculateWinner_cases b :
  snapshot b → calculateWinner b = Null ∨ mark (calculateWinner b).
Proof.
  intros Hb. destruct (scan_result lines b) as [Hn | (l & _ & Hhit & Heq)].
  - by left.
  - right. unfold calculateWinner. rewrite Heq.
    by apply line_hit_complete in Hhit as [Hm _].
Qed.

Lemma store_alloc h b i v :
  store (h ++ [b]) (length h) i v = (λ b', h ++ [b']) <$> set b i v.
Proof.
  unfold store. rewrite lookup_app_r, Nat.sub_diag by lia. simpl.
  destruct (set b i v) as [b' |]; [simpl | done].
  by rewrite insert_app_r_alt, Nat.sub_diag by lia.
Qed.

Lemma set_in_range b i v :
  (i < length b)%nat → (i < 9)%nat → set b i v = Some (<[i := v]> b).
Proof.
  intros Hi H9. unfold set. by rewrite !decide_True by lia.
Qed.

Lemma set_past_the_end b i v :
  (length b ≤ i)%nat → Z.of_nat i ≤ 4294967294 →
  set b i v = Some (b ++ replicate (i - length b) Undefined ++ [v]).
Proof.
  intros Hi Hmax. unfold set. by rewrite decide_True, decide_False by lia.
Qed.

(** [handleClick] with the heap operations carried out. *)
Lemma handleClick_unfold {W : Type} (xIsNext : bool) (squares : loc)
    (onPlay : loc → heap → W → option (heap * W)) i h w b :
  h !! squares = Some b →
  handleClick xIsNext squares onPlay i h w =
    if truthy (calculateWinner b) || truthy (get b i) then Some (h, w)
    else b' ← set b i (nextPlayer xIsNext);
         onPlay (length h) (h ++ [b']) w.
Proof.
  intros Hsq. unfold handleClick. rewrite Hsq. simpl. unfold js_or.
  destruct (truthy (calculateWinner b)) eqn:Hw; simpl; [by rewrite Hw |].
  destruct (truthy (get b i)); [done |].
  rewrite store_alloc. by destruct (set b i (nextPlayer xIsNext)).
Qed.

Lemma snapshot_slot_cases b i :
  snapshot b → (i < 9)%nat →
  b !! i = Some Null ∨ ∃ m, mark m ∧ b !! i = Some m.
Proof.
  intros Hb Hi. destruct (lookup_lt_is_Some_2 b i) as [v Hv].
  { destruct Hb as [-> _]. lia. }
  destruct (snapshot_lookup _ _ _ Hb Hv) as [-> | Hm]; [by left | right; eauto].
Qed.

Section BoardFacts.
Context {W : Type}.
Variables (xIsNext : bool) (squares : loc).
Variable onPlay : loc → heap → W → option (heap * W).
Variables (i : nat) (h : heap) (w : W) (b : list value).
Hypothesis Hsq : h !! squares = Some b.
Hypothesis Hb : snapshot b.
Hypothesis Hi : (i < 9)%nat.

Lemma handleClick_rejects :
  mark (calculateWinner b) ∨ (∃ m, mark m ∧ b !! i = Some m) →
  handleClick xIsNext squares onPlay i h w = Some (h, w).
Proof.
  rewrite (handleClick_unfold _ _ _ _ _ _ _ Hsq).
  intros [Hw | (m & Hm & Hbi)].
  - by rewrite (mark_truthy _ Hw).
  - rewrite (get_lookup _ _ _ Hbi), (mark_truthy _ Hm).
    by rewrite orb_true_r.
Qed.

Lemma handleClick_plays :
  calculateWinner b = Null → b !! i = Some Null →
  handleClick xIsNext squares onPlay i h w =
    onPlay (length h) (h ++ [<[i := nextPlayer xIsNext]> b]) w.
Proof.
  rewrite (handleClick_unfold _ _ _ _ _ _ _ Hsq).
  intros -> Hbi. rewrite (get_lookup _ _ _ Hbi). simpl.
  rewrite set_in_range; [done | | done]. destruct Hb as [-> _]. lia.
Qed.

Lemma handleClick_two_cases :
  (mark (calculateWinner b) ∨ (∃ m, mark m ∧ b !! i = Some m)) ∨
  (calculateWinner b = Null ∧ b !! i = Some Null).
Proof.
  destruct (calculateWinner_cases b Hb) as [Hn | Hm]; [| by left; left].
  destruct (snapshot_slot_cases b i Hb Hi) as [H0 | Hocc];
    [by right | by left; right].
Qed.
End BoardFacts.

(** C2. On a snapshot and a square [i < 9], [handleClick] returns without
    calling [onPlay] and without touching the heap or the caller's state
    when the snapshot has a winner or square [i] holds a mark; otherwise its
    whole effect is one call of [onPlay], on a newly allocated array that is
    the snapshot with square [i] set to the mark of the player to move:
    ['X'] when [xIsNext] holds and ['O'] when it does not.  One of the two
    cases always applies. *)
Theorem handleClick_spec {W : Type} (xIsNext : bool) (squares : loc)
    (onPlay : loc → heap → W → option (heap * W))
    (i : nat) (h : heap) (w : W) (b : list value) :
  h !! squares = Some b → snapshot b → (i < 9)%nat →
  ((mark (calculateWinner b) ∨ (∃ m, mark m ∧ b !! i = Some m)) →
   handleClick xIsNext squares onPlay i h w = Some (h, w)) ∧
  (calculateWinner b = Null → b !! i = Some Null →
   handleClick xIsNext squares onPlay i h w =
     onPlay (length h)
            (h ++ [<[i := if xIsNext then Str "X" else Str "O"]> b]) w) ∧
  ((mark (calculateWinner b) ∨ (∃ m, mark m ∧ b !! i = Some m)) ∨
   (calculateWinner b = Null ∧ b !! i = Some Null)).
Proof.
  intros Hsq Hb Hi. split_and!.
  - by apply handleClick_rejects.
  - intros Hn Hfree.
    by rewrite (handleClick_plays xIsNext squares onPlay i h w b).
  - by apply handleClick_two_cases.
Qed.

Lemma handleClick_spec_witness :
  handleClick true 0 count_calls 4 [empty_board] 0%nat
    = Some ([empty_board; <[4%nat := Str "X"]> empty_board], 1%nat) ∧
  handleClick false 0 count_calls 4 [empty_board] 0%nat
    = Some ([empty_board; <[4%nat := Str "O"]> empty_board], 1%nat) ∧
  handleClick false 0 never_called 5 [top_row_board] 0%nat
    = Some ([top_row_board], 0%nat).
Proof.
  split_and!.
  - destruct (handleClick_spec true 0 count_calls 4 [empty_board] 0%nat
                empty_board) as (_ & Hplay & _);
      [reflexivity | by apply (bool_decide_unpack _) | lia |].
    rewrite Hplay; reflexivity.
  - destruct (handleClick_spec false 0 count_calls 4 [empty_board] 0%nat
                empty_board) as (_ & Hplay & _);
      [reflexivity | by apply (bool_decide_unpack _) | lia |].
    rewrite Hplay; reflexivity.
  - destruct (handleClick_spec false 0 never_called 5 [top_row_board] 0%nat
                top_row_board) as (Hreject & _ & _);
      [reflexivity | by apply (bool_decide_unpack _) | lia |].
    apply Hreject. left. by left.
Defined.

(** C6. On a snapshot the status line is ["Winner: "] followed by the mark
    that [calculateWinner] returns when it returns one, and
    ["Next player: "] followed by the mark of the player to move when it
    returns [null]. *)
Theorem status_spec (xIsNext : bool) (b : list value) :
  snapshot b →
  (calculateWinner b = Str "X" ∧ status xIsNext b = "Winner: X") ∨
  (calculateWinner b = Str "O" ∧ status xIsNext b = "Winner: O") ∨
  (calculateWinner b = Null ∧
   status xIsNext b = "Next player: " +:+ (if xIsNext then "X" else "O")).
Proof.
  intros Hb. unfold status.
  destruct (calculateWinner_cases b Hb) as [-> | [-> | ->]].
  - right; right. by destruct xIsNext.
  - by left.
  - right; by left.
Qed.

Lemma status_spec_witness :
  status false top_row_board = "Winner: X" ∧
  status false draw_board = "Next player: O".
Proof.
  split.
  - destruct (status_spec false top_row_board) as [[_ Hs] | [[Hw _] | [Hw _]]];
      [by apply (bool_decide_unpack _) | exact Hs | discriminate Hw
      | discriminate Hw].
  - destruct (status_spec false draw_board) as [[Hw _] | [[Hw _] | [_ Hs]]];
      [by apply (bool_decide_unpack _) | discriminate Hw | discriminate Hw
      | exact Hs].
Defined.

(** C8. A click on an empty square of a snapshot never writes to the array
    it was given: the mark is written to a copy at a new location, the
    callback is called on that copy with the given array as it was, and
    after [handlePlay] every array that was on the heap, the given one
    among them, holds the values it held before. *)
Theorem handleClick_copies (xIsNext : bool) (squares : loc) (i : nat)
    (h : heap) (b : list value) (g g0 : Game) :
  h !! squares = Some b → snapshot b → (i < 9)%nat → b !! i = Some Null →
  (∃ h' g',
      handleClick xIsNext squares (handlePlay g) i h g0 = Some (h', g') ∧
      h' !! squares = Some b ∧
      ∀ r a, h !! r = Some a → h' !! r = Some a) ∧
  (calculateWinner b = Null →
   ∀ (W : Type) (onPlay : loc → heap → W → option (heap * W)) (w : W),
   ∃ nextSquares h',
      handleClick xIsNext squares onPlay i h w = onPlay nextSquares h' w ∧
      nextSquares ≠ squares ∧
      h !! nextSquares = None ∧
      h' !! nextSquares = Some (<[i := nextPlayer xIsNext]> b) ∧
      h' !! squares = Some b).
Proof.
  intros Hsq Hb Hi Hbi.
  assert (squares < length h)%nat as Hlt by (by eapply lookup_lt_Some).
  split.
  - destruct (calculateWinner_cases b Hb) as [Hn | Hm].
    + rewrite (handleClick_plays _ _ _ _ _ _ b) by done.
      unfold handlePlay. eexists _, _.
      split; [done |]. split.
      * by rewrite lookup_app_l.
      * intros r a Hr. rewrite lookup_app_l; [done |].
        by eapply lookup_lt_Some.
    + rewrite (handleClick_rejects _ _ _ _ _ _ b) by (done || by left). eauto.
  - intros Hn W onPlay w.
    exists (length h), (h ++ [<[i := nextPlayer xIsNext]> b]).
    split_and!.
    + by apply handleClick_plays.
    + lia.
    + by apply lookup_ge_None_2.
    + by rewrite lookup_app_r, Nat.sub_diag by lia.
    + by rewrite lookup_app_l.
Qed.

Lemma handleClick_copies_witness :
  ∃ h' g',
    handleClick true 0 (handlePlay init.2) 4 init.1 init.2 = Some (h', g') ∧
    h' !! 0%nat = Some empty_board ∧
    ∀ r a, init.1 !! r = Some a → h' !! r = Some a.
Proof.
  apply (handleClick_copies true 0 4 init.1 empty_board init.2 init.2);
    [reflexivity | by apply (bool_decide_unpack _) | lia | reflexivity].
Defined.

(** ** Game: handlePlay and jumpTo *)

Lemma slice0_in_range {A : Type} (l : list A) (k : Z) :
  0 ≤ k < Z.of_nat (length l) →
  slice0 l (k + 1) = take (S (Z.to_nat k)) l.
Proof.
  intros Hk. unfold slice0.
  destruct (Z.ltb_spec (k + 1) 0) as [? | _]; [lia |].
  f_equal. lia.
Qed.

Lemma get_Z_nonneg {A : Type} (l : list A) (k : Z) :
  0 ≤ k → get_Z l k = l !! Z.to_nat k.
Proof.
  intros Hk. unfold get_Z. by destruct (Z.ltb_spec k 0) as [? | _]; [lia |].
Qed.

(** C3. With [currentMove] inside [history], [handlePlay s] sets [history]
    to its entries up to and including [currentMove] followed by [s], and
    [currentMove] to the index of [s], the last one.  The entries that
    followed [currentMove] are gone: the new history has
    [currentMove + 2] entries, and a jump inside it shows either one of the
    entries kept or [s]. *)
Theorem handlePlay_spec (g g0 : Game) (s : loc) (h : heap) :
  0 ≤ currentMove g < Z.of_nat (length (history g)) →
  ∃ g',
    handlePlay g s h g0 = Some (h, g') ∧
    history g' = take (S (Z.to_nat (currentMove g))) (history g) ++ [s] ∧
    currentMove g' = Z.of_nat (length (history g')) - 1 ∧
    currentMove g' = currentMove g + 1 ∧
    Z.of_nat (length (history g')) = currentMove g + 2 ∧
    (∀ k, 0 ≤ k < Z.of_nat (length (history g')) →
          currentSquares (jumpTo k g') =
            if k <=? currentMove g then history g !! Z.to_nat k else Some s) ∧
    (∀ k, currentMove g + 1 < k → currentSquares (jumpTo k g') = None).
Proof.
  intros Hcm. unfold handlePlay. rewrite slice0_in_range by done.
  set (n := Z.to_nat (currentMove g)).
  assert (Z.of_nat n = currentMove g) as Hn by (subst n; lia).
  clearbody n.
  assert (length (take (S n) (history g) ++ [s]) = S (S n)) as Hlen.
  { rewrite length_app, length_take. change (length [s]) with 1%nat. lia. }
  eexists. split; [reflexivity |]. simpl. rewrite Hlen.
  split_and!; [done | done | lia | lia | |].
  - intros k Hk. unfold currentSquares. simpl. rewrite get_Z_nonneg by lia.
    destruct (Z.leb_spec k (currentMove g)) as [Hle | Hgt].
    + rewrite lookup_app_l by (rewrite length_take; lia).
      apply lookup_take_lt. lia.
    + replace (Z.to_nat k) with (S n) by lia.
      rewrite lookup_app_r by (rewrite length_take; lia).
      rewrite length_take. by replace (S n - S n `min` length (history g))%nat
        with 0%nat by lia.
  - intros k Hk. unfold currentSquares. simpl. rewrite get_Z_nonneg by lia.
    apply lookup_ge_None_2. rewrite Hlen. lia.
Qed.

Lemma handlePlay_spec_witness :
  ∃ g',
    handlePlay (mkGame [0; 1; 2; 3]%nat 1) 4%nat [] (mkGame [0; 1; 2; 3]%nat 1)
      = Some ([], g') ∧
    history g' = [0; 1; 4]%nat ∧ currentMove g' = 2.
Proof.
  destruct (handlePlay_spec (mkGame [0; 1; 2; 3]%nat 1)
              (mkGame [0; 1; 2; 3]%nat 1) 4%nat [])
    as (g' & Hrun & Hhist & _ & Hcm & _); [simpl; lia |].
  exists g'. split_and!; [exact Hrun | exact Hhist | exact Hcm].
Defined.

(** C7. A jump to an index inside [history] sets [currentMove] to that
    index and changes neither [history] nor any array on the heap; the
    snapshot shown is then the entry of [history] at that index. *)
Theorem jumpTo_in_range (h : heap) (g : Game) (k : Z) :
  0 ≤ k < Z.of_nat (length (history g)) →
  jump k (h, g) = (h, jumpTo k g) ∧
  currentMove (jumpTo k g) = k ∧
  history (jumpTo k g) = history g ∧
  (∀ j, board_at (jump k (h, g)) j = board_at (h, g) j) ∧
  is_Some (currentSquares (jumpTo k g)) ∧
  currentSquares (jumpTo k g) = history g !! Z.to_nat k.
Proof.
  intros Hk. split_and!; try done.
  - unfold currentSquares. simpl. rewrite get_Z_nonneg by lia.
    apply lookup_lt_is_Some_2. lia.
  - unfold currentSquares. simpl. apply get_Z_nonneg. lia.
Qed.

Lemma jumpTo_in_range_witness :
  currentMove (jumpTo 1 (mkGame [0; 1; 2]%nat 2)) = 1 ∧
  history (jumpTo 1 (mkGame [0; 1; 2]%nat 2)) = [0; 1; 2]%nat.
Proof.
  destruct (jumpTo_in_range [] (mkGame [0; 1; 2]%nat 2) 1)
    as (_ & Hcm & Hhist & _); [simpl; lia |].
  split; [exact Hcm | exact Hhist].
Defined.

(** C10. [jumpTo] checks nothing: for every integer [k] it sets
    [currentMove] to [k] and leaves [history] alone, and when [k] is negative
    or not below the length of [history], [history[currentMove]] is
    undefined. *)
Theorem jumpTo_unchecked (g : Game) (k : Z) :
  currentMove (jumpTo k g) = k ∧
  history (jumpTo k g) = history g ∧
  (k < 0 ∨ Z.of_nat (length (history g)) ≤ k →
   currentSquares (jumpTo k g) = None).
Proof.
  split_and!; [done | done |].
  intros Hk. unfold currentSquares, get_Z. simpl.
  destruct (Z.ltb_spec k 0) as [_ | Hge]; [done |].
  apply lookup_ge_None_2. lia.
Qed.

Lemma jumpTo_unchecked_witness :
  currentSquares (jumpTo (-1) init.2) = None ∧
  currentSquares (jumpTo 1 init.2) = None.
Proof.
  split.
  - apply (jumpTo_unchecked init.2 (-1)). left. lia.
  - apply (jumpTo_unchecked init.2 1). right. simpl. lia.
Defined.

(** ** Sessions: what every reachable state satisfies *)

Lemma wf_current σ :
  wf σ →
  ∃ r b, history σ.2 !! Z.to_nat (currentMove σ.2) = Some r
         ∧ currentSquares σ.2 = Some r ∧ σ.1 !! r = Some b ∧ snapshot b.
Proof.
  intros [Hcm Hall].
  destruct (lookup_lt_is_Some_2 (history σ.2) (Z.to_nat (currentMove σ.2)))
    as [r Hr]; [lia |].
  destruct (Hall _ _ Hr) as (b & Hb & Hsnap).
  exists r, b. split_and!; try done.
  unfold currentSquares. by rewrite get_Z_nonneg by lia.
Qed.

(** A click in a well-formed state is either rejected or a move. *)
Lemma click_cases σ i :
  wf σ → (i < 9)%nat →
  ∃ r b, history σ.2 !! Z.to_nat (currentMove σ.2) = Some r
         ∧ σ.1 !! r = Some b ∧ snapshot b
         ∧ (click i σ = Some σ
            ∨ (calculateWinner b = Null ∧ b !! i = Some Null
               ∧ click i σ = Some (moved i b σ))).
Proof.
  intros Hwf Hi. destruct (wf_current σ Hwf) as (r & b & Hr & Hcur & Hb & Hsnap).
  exists r, b. split_and!; try done.
  destruct σ as [h g]; simpl in *. rewrite Hcur. simpl.
  destruct (handleClick_two_cases i b Hsnap Hi) as [Hocc | [Hn Hfree]].
  - left. by apply (handleClick_rejects _ _ _ _ _ _ b).
  - right. split_and!; try done.
    rewrite (handleClick_plays _ _ _ _ _ _ b) by done.
    unfold handlePlay, moved. simpl.
    destruct Hwf as [Hcm _]; simpl in Hcm.
    rewrite slice0_in_range by done. do 3 f_equal.
    rewrite length_app, length_take. change (length [length h]) with 1%nat. lia.
Qed.

Lemma nextPlayer_mark x : mark (nextPlayer x).
Proof. destruct x; [by left | by right]. Qed.

Lemma snapshot_insert b i m : snapshot b → mark m → snapshot (<[i := m]> b).
Proof.
  intros [Hlen Hall] Hm. split; [by rewrite length_insert |].
  apply Forall_insert; [done | by right].
Qed.

Lemma one_move_insert b i m :
  snapshot b → (i < 9)%nat → b !! i = Some Null → mark m →
  one_move b (<[i := m]> b).
Proof.
  intros [Hlen _] Hi Hbi Hm. exists i. split_and!; [done | |].
  - exists m. split; [done |]. apply list_lookup_insert_eq. lia.
  - intros j' Hne. by apply list_lookup_insert_ne.
Qed.

Lemma wf_init : wf init.
Proof.
  split; [simpl; lia |]. intros [| k] r Hk; [| done].
  injection Hk as <-. exists empty_board. split; [done |].
  by apply (bool_decide_unpack _).
Qed.

Lemma linked_init : linked init.
Proof. split; [done |]. simpl. intros k Hk. lia. Qed.

(** The entries a move keeps are read through the grown heap as before. *)
Lemma board_at_moved σ i b k :
  wf σ → (k ≤ Z.to_nat (currentMove σ.2))%nat →
  board_at (moved i b σ) k = board_at σ k.
Proof.
  intros [Hcm Hall] Hk. unfold board_at, moved. simpl.
  rewrite lookup_app_l by (rewrite length_take; lia).
  rewrite lookup_take_lt by lia.
  destruct (history σ.2 !! k) as [r |] eqn:Hr; [simpl | done].
  destruct (Hall _ _ Hr) as (b0 & Hb0 & _).
  rewrite lookup_app_l; [done |]. by eapply lookup_lt_Some.
Qed.

Lemma board_at_moved_last σ i b :
  wf σ →
  board_at (moved i b σ) (S (Z.to_nat (currentMove σ.2)))
    = Some (<[i := nextPlayer (xIsNext_of σ.2)]> b).
Proof.
  intros [Hcm _]. unfold board_at, moved. simpl.
  rewrite lookup_app_r by (rewrite length_take; lia).
  rewrite length_take.
  replace (S (Z.to_nat (currentMove σ.2))
           - S (Z.to_nat (currentMove σ.2)) `min` length (history σ.2))%nat
    with 0%nat by lia.
  simpl. by rewrite lookup_app_r, Nat.sub_diag by lia.
Qed.

Lemma length_history_moved σ i b :
  wf σ →
  length (history (moved i b σ).2) = S (S (Z.to_nat (currentMove σ.2))).
Proof.
  intros [Hcm _]. unfold moved. simpl.
  rewrite length_app, length_take.
  change (length [length σ.1]) with 1%nat. lia.
Qed.

Lemma wf_moved σ i b r :
  wf σ → history σ.2 !! Z.to_nat (currentMove σ.2) = Some r →
  σ.1 !! r = Some b → snapshot b → wf (moved i b σ).
Proof.
  intros Hwf Hr Hb Hsnap. pose proof Hwf as [Hcm Hall]. split.
  - rewrite length_history_moved by done. simpl. lia.
  - intros k r' Hk. simpl in *.
    destruct (decide (k ≤ Z.to_nat (currentMove σ.2))%nat) as [Hle | Hgt].
    + rewrite lookup_app_l in Hk by (rewrite length_take; lia).
      rewrite lookup_take_lt in Hk by lia.
      destruct (Hall _ _ Hk) as (b0 & Hb0 & Hs0). exists b0. split; [| done].
      rewrite lookup_app_l; [done |]. by eapply lookup_lt_Some.
    + pose proof (lookup_lt_Some _ _ _ Hk) as Hlt.
      pose proof (length_history_moved σ i b Hwf) as Hlen. simpl in Hlen.
      rewrite Hlen in Hlt.
      assert (k = S (Z.to_nat (currentMove σ.2))) as -> by lia.
      pose proof (board_at_moved_last σ i b Hwf) as Hlast.
      unfold board_at in Hlast. simpl in Hlast. rewrite Hk in Hlast.
      simpl in Hlast. eexists. split; [exact Hlast |].
      apply snapshot_insert; [done | apply nextPlayer_mark].
Qed.

Lemma linked_moved σ i b r :
  wf σ → linked σ → (i < 9)%nat →
  history σ.2 !! Z.to_nat (currentMove σ.2) = Some r →
  σ.1 !! r = Some b → snapshot b → b !! i = Some Null →
  linked (moved i b σ).
Proof.
  intros Hwf [H0 Hstep] Hi Hr Hb Hsnap Hbi. pose proof Hwf as [Hcm _]. split.
  - rewrite board_at_moved by (done || lia). done.
  - intros k Hk. rewrite length_history_moved in Hk by done.
    destruct (decide (k ≤ Z.to_nat (currentMove σ.2))%nat) as [Hle | Hgt].
    + rewrite !board_at_moved by (done || lia). apply Hstep. lia.
    + assert (k = S (Z.to_nat (currentMove σ.2))) as -> by lia.
      rewrite board_at_moved by (done || lia). rewrite board_at_moved_last by done.
      exists b, (<[i := nextPlayer (xIsNext_of σ.2)]> b). split_and!; [| done |].
      * unfold board_at. simpl. rewrite Nat.sub_0_r, Hr. done.
      * apply one_move_insert; [done | done | done | apply nextPlayer_mark].
Qed.

Lemma reachable_wf_linked σ : reachable σ → wf σ ∧ linked σ.
Proof.
  induction 1 as [| σ σ' i _ [Hwf Hl] Hi Hclick | σ k _ [Hwf Hl] Hk].
  - split; [apply wf_init | apply linked_init].
  - destruct (click_cases σ i Hwf Hi)
      as (r & b & Hr & Hb & Hsnap & [Hsame | (Hn & Hfree & Hmove)]).
    + rewrite Hsame in Hclick. by injection Hclick as <-.
    + rewrite Hmove in Hclick. injection Hclick as <-. split.
      * by eapply wf_moved.
      * by eapply linked_moved.
  - destruct Hwf as [Hcm Hall]. split; [split |]; done.
Qed.


Lemma run_reachable es σ σ' :
  reachable σ → run es σ = Some σ' → reachable σ'.
Proof.
  revert σ. induction es as [| e es IH]; intros σ Hr Hrun; simpl in Hrun.
  - by injection Hrun as <-.
  - destruct (step e σ) as [σ1 |] eqn:Hstep; [simpl in Hrun | done].
    apply (IH σ1); [| done]. destruct e as [i | k]; simpl in Hstep.
    + destruct (decide (i < 9)%nat); [| done]. by eapply reachable_click.
    + destruct (decide (0 ≤ k < Z.of_nat (length (history σ.2)))); [| done].
      injection Hstep as <-. by apply reachable_jump.
Qed.

Lemma reachable_session_example : reachable session_example.
Proof.
  apply (run_reachable [Click 0; Click 4; JumpTo 1; Click 2] init);
    [apply reachable_init | reflexivity].
Qed.


(** A click in a reachable state always returns. *)
Lemma reachable_click_total σ i :
  reachable σ → (i < 9)%nat → is_Some (click i σ).
Proof.
  intros Hr Hi. destruct (reachable_wf_linked σ Hr) as [Hwf _].
  destruct (click_cases σ i Hwf Hi)
    as (r & b & _ & _ & _ & [Hsame | (_ & _ & Hmove)]); eauto.
Qed.

(** ** Whose turn it is *)

Lemma xIsNext_of_even g : xIsNext_of g = Z.even (currentMove g).
Proof.
  unfold xIsNext_of. generalize (currentMove g) as a. intros a.
  destruct (Z.le_gt_cases 0 a) as [Hpos | Hneg].
  - rewrite Z.rem_mod_nonneg by lia. symmetry. apply Zeven_mod.
  - replace a with (- - a) by lia.
    rewrite Z.rem_opp_l, Z.even_opp, Z.rem_mod_nonneg, Zeven_mod by lia.
    destruct (Z.eqb_spec (- a mod 2) 0), (Z.eqb_spec (- (- a mod 2)) 0);
      (done || lia).
Qed.

Lemma even_of_nat k : Z.even (Z.of_nat k) = Nat.even k.
Proof.
  induction k as [| k IH]; [done |].
  rewrite Nat2Z.inj_succ, Z.even_succ, Nat.even_succ.
  by rewrite <- Z.negb_even, <- Nat.negb_even, IH.
Qed.

Lemma nextPlayer_X x : nextPlayer x = X ↔ x = true.
Proof. by destruct x. Qed.

Lemma nextPlayer_O x : nextPlayer x = O ↔ x = false.
Proof. by destruct x. Qed.

Lemma plays_reachable k σ : plays k σ → reachable σ.
Proof.
  induction 1 as [| k σ σ' i _ IH Hi Hclick _ | k σ i _ IH _ _]; [| | done].
  - apply reachable_init.
  - by eapply reachable_click.
Qed.

Lemma moved_neq σ i b : moved i b σ ≠ σ.
Proof.
  intros Heq. apply (f_equal (λ s, length s.1)) in Heq. simpl in Heq.
  rewrite length_app in Heq. simpl in Heq. lia.
Qed.

Lemma plays_currentMove k σ : plays k σ → currentMove σ.2 = Z.of_nat k.
Proof.
  induction 1 as [| k σ σ' i Hp IH Hi Hclick Hne | k σ i _ IH _ _];
    [done | | done].
  destruct (reachable_wf_linked σ (plays_reachable _ _ Hp)) as [Hwf _].
  destruct (click_cases σ i Hwf Hi)
    as (r & b & _ & _ & _ & [Hsame | (_ & _ & Hmove)]).
  - rewrite Hsame in Hclick. by injection Hclick as <-.
  - rewrite Hmove in Hclick. injection Hclick as <-. simpl. lia.
Qed.

(** C5. In a reachable state the player to move is X exactly when
    [currentMove] is even, and O exactly when it is odd; the same holds
    right after a jump inside the history, with the index jumped to.  A
    click that is a move writes that player's mark on the square clicked.
    After [k] moves from the start, with no jumps, [currentMove] is [k], so
    that X is to move exactly when [k] is even. *)
Theorem turn_parity (σ : heap * Game) :
  reachable σ →
  (nextPlayer (xIsNext_of σ.2) = X ↔ Z.even (currentMove σ.2) = true) ∧
  (nextPlayer (xIsNext_of σ.2) = O ↔ Z.even (currentMove σ.2) = false) ∧
  (∀ k, 0 ≤ k < Z.of_nat (length (history σ.2)) →
        nextPlayer (xIsNext_of (jump k σ).2) = X ↔ Z.even k = true) ∧
  (∀ i σ', (i < 9)%nat → click i σ = Some σ' → σ' ≠ σ →
        currentMove σ'.2 = currentMove σ.2 + 1 ∧
        ∃ b', board_at σ' (Z.to_nat (currentMove σ'.2)) = Some b' ∧
              b' !! i = Some (if Z.even (currentMove σ.2) then X else O)) ∧
  (∀ k, plays k σ →
        currentMove σ.2 = Z.of_nat k ∧
        (nextPlayer (xIsNext_of σ.2) = X ↔ Nat.even k = true)).
Proof.
  intros Hr. destruct (reachable_wf_linked σ Hr) as [Hwf _].
  split_and!.
  - by rewrite nextPlayer_X, xIsNext_of_even.
  - by rewrite nextPlayer_O, xIsNext_of_even.
  - intros k _. by rewrite nextPlayer_X, xIsNext_of_even.
  - intros i σ' Hi Hclick Hne.
    destruct (click_cases σ i Hwf Hi)
      as (r & b & _ & _ & [Hlen _] & [Hsame | (_ & _ & Hmove)]).
    + rewrite Hsame in Hclick. by injection Hclick as <-.
    + rewrite Hmove in Hclick. injection Hclick as <-.
      split; [done |]. destruct Hwf as [Hcm Hall]. simpl.
      replace (Z.to_nat (currentMove σ.2 + 1))
        with (S (Z.to_nat (currentMove σ.2))) by lia.
      rewrite board_at_moved_last by done. eexists. split; [done |].
      rewrite list_lookup_insert_eq by lia.
      rewrite xIsNext_of_even. by destruct (Z.even (currentMove σ.2)).
  - intros k Hp. pose proof (plays_currentMove k σ Hp) as Hk.
    split; [done |].
    rewrite nextPlayer_X, xIsNext_of_even, Hk. by rewrite even_of_nat.
Qed.

Lemma plays_two_moves : plays 2 two_moves.
Proof.
  apply (plays_move 1 ([empty_board; <[0%nat := X]> empty_board],
                       mkGame [0; 1]%nat 1) _ 4);
    [| lia | reflexivity | discriminate].
  apply (plays_move 0 init _ 0); [| lia | reflexivity | discriminate].
  apply plays_start.
Qed.

Lemma turn_parity_witness :
  currentMove two_moves.2 = 2 ∧
  (nextPlayer (xIsNext_of two_moves.2) = X ↔ Nat.even 2 = true).
Proof.
  destruct (turn_parity two_moves) as (_ & _ & _ & _ & Hplays).
  - apply (plays_reachable 2), plays_two_moves.
  - apply (Hplays 2%nat), plays_two_moves.
Defined.

(** ** Two triples at once *)

(** One move can complete two triples: the session [double_win_clicks]
    ends on a board whose top row and left column are both complete. *)
Lemma double_win_reachable :
  ∃ σ, reachable σ ∧ current_board σ = Some double_win_board
       ∧ complete double_win_board (0, 1, 2)%nat X
       ∧ complete double_win_board (0, 3, 6)%nat X.
Proof.
  destruct (run double_win_clicks init) as [σ |] eqn:Hrun; [| by vm_compute in Hrun].
  exists σ. split; [by apply (run_reachable double_win_clicks init);
                      [apply reachable_init |] |].
  vm_compute in Hrun. injection Hrun as <-.
  split_and!; [reflexivity | |]; (split_and!; [by left | done | done | done]).
Qed.

(** C9, as stated, refuted: boards with more than one complete triple are
    not confined to unreachable inputs.  Were two distinct complete triples
    impossible on the board of a reachable state, the session
    [double_win_clicks] could not exist. *)
Lemma two_complete_triples_reachable :
  ¬ (∀ σ b l1 l2 m1 m2,
        reachable σ → current_board σ = Some b →
        l1 ∈ lines → l2 ∈ lines →
        complete b l1 m1 → complete b l2 m2 → l1 = l2).
Proof.
  intros Hnever.
  destruct double_win_reachable as (σ & Hr & Hcur & Hrow & Hcol).
  assert ((0, 1, 2)%nat = (0, 3, 6)%nat) as Heq; [| discriminate Heq].
  apply (Hnever σ double_win_board _ _ X X Hr Hcur); [| | done | done].
  - apply list_elem_of_here.
  - do 3 apply list_elem_of_further. apply list_elem_of_here.
Qed.

(** ** calculateWinner on arbitrary arrays *)

Lemma line_hit_true b l :
  line_hit b l = true ↔
  truthy (get b l.1.1) = true ∧ get b l.1.1 = get b l.1.2
  ∧ get b l.1.1 = get b l.2.
Proof.
  destruct l as [[a c] d]. simpl.
  rewrite !andb_true_iff, !strict_eq_true.
  split; [by intros [[? ?] ?] | by intros (? & ? & ?)].
Qed.

(** X1. Whatever array it is given, of any length and with any strings or
    holes in it, [calculateWinner] returns either [null], and then no line
    holds one truthy value three times, or a truthy value that sits on all
    three squares of some line; it never returns [undefined] or the empty
    string. *)
Theorem calculateWinner_any_array (b : list value) :
  (calculateWinner b = Null ∧
   ∀ l, l ∈ lines →
        ¬ (truthy (get b l.1.1) = true ∧ get b l.1.1 = get b l.1.2
           ∧ get b l.1.1 = get b l.2)) ∨
  (truthy (calculateWinner b) = true ∧
   ∃ l, l ∈ lines ∧ get b l.1.1 = calculateWinner b
        ∧ get b l.1.2 = calculateWinner b ∧ get b l.2 = calculateWinner b).
Proof.
  unfold calculateWinner.
  destruct (decide (Exists (λ l, line_hit b l = true) lines)) as [He | Hn].
  - right. destruct (scan_hit lines b) as (l & Hl & Hhit & ->).
    { by apply Exists_exists. }
    apply line_hit_true in Hhit as (Ht & H2 & H3).
    split; [done |]. exists l. by rewrite <- H2, <- H3.
  - left. assert (∀ l, l ∈ lines → line_hit b l = false) as Hall.
    { intros l Hl. apply not_true_is_false. intros Hhit.
      apply Hn, Exists_exists. eauto. }
    split; [by apply scan_miss |].
    intros l Hl Hhit. apply line_hit_true in Hhit.
    by rewrite (Hall l Hl) in Hhit.
Qed.

Lemma get_take b n k : (k < n)%nat → get (take n b) k = get b k.
Proof. intros Hk. unfold get. by rewrite lookup_take_lt. Qed.

(** X2. [calculateWinner] reads the first nine squares only: what an array
    holds from index 9 on does not change the result. *)
Theorem calculateWinner_first_nine (b : list value) :
  calculateWinner (take 9 b) = calculateWinner b.
Proof.
  unfold calculateWinner, lines, scan, line_hit. simpl.
  by rewrite !get_take by lia.
Qed.

(** ** handleClick and handlePlay outside the range the page keeps *)

(** X3. [handleClick] does not check [i] against the length of the array:
    on an array without a winner, an array index (at most 2^32 - 2) at or
    past its end counts as an empty square, and the copy handed to [onPlay]
    has grown to [i + 1] squares, with [undefined] holes between the old
    end and the mark. *)
Theorem handleClick_past_end {W : Type} (xIsNext : bool) (squares : loc)
    (onPlay : loc → heap → W → option (heap * W))
    (i : nat) (h : heap) (w : W) (b : list value) :
  h !! squares = Some b →
  truthy (calculateWinner b) = false →
  (length b ≤ i)%nat →
  Z.of_nat i ≤ 4294967294 →
  handleClick xIsNext squares onPlay i h w =
    onPlay (length h)
           (h ++ [b ++ replicate (i - length b) Undefined
                    ++ [nextPlayer xIsNext]]) w
  ∧ length (b ++ replicate (i - length b) Undefined ++ [nextPlayer xIsNext])
    = S i.
Proof.
  intros Hsq Hw Hi Hmax. split.
  - rewrite (handleClick_unfold _ _ _ _ _ _ _ Hsq), Hw.
    unfold get. rewrite lookup_ge_None_2 by done. simpl.
    by rewrite set_past_the_end by done.
  - rewrite !length_app, length_replicate. simpl. lia.
Qed.

Lemma handleClick_past_end_witness :
  handleClick true 0 count_calls 11 [empty_board] 0%nat =
    Some ([empty_board;
           empty_board ++ [Undefined; Undefined; X]], 1%nat).
Proof.
  destruct (handleClick_past_end true 0 count_calls 11 [empty_board] 0%nat
              empty_board) as [Hrun _];
    [reflexivity | reflexivity | simpl; lia | lia |].
  rewrite Hrun. reflexivity.
Defined.

(** X4. [handlePlay] leaves [currentMove] on the last entry of [history],
    which is the new snapshot, whatever [currentMove] was before: the new
    history is some prefix of the old one followed by the snapshot.  A
    [currentMove] at or past the last index drops nothing; a negative one
    makes [slice] count from the end, and [-1] drops everything. *)
Theorem handlePlay_any_currentMove (g g0 : Game) (s : loc) (h : heap) :
  ∃ n g',
    handlePlay g s h g0 = Some (h, g') ∧
    (n ≤ length (history g))%nat ∧
    history g' = take n (history g) ++ [s] ∧
    currentMove g' = Z.of_nat n ∧
    currentSquares g' = Some s ∧
    (Z.of_nat (length (history g)) ≤ currentMove g + 1 →
     n = length (history g)) ∧
    (currentMove g + 1 < 0 →
     Z.of_nat n = Z.max (Z.of_nat (length (history g)) + currentMove g + 1) 0) ∧
    (currentMove g = -1 → history g' = [s]).
Proof.
  unfold handlePlay, slice0.
  set (len := Z.of_nat (length (history g))).
  set (k := if currentMove g + 1 <? 0
            then Z.max (len + (currentMove g + 1)) 0
            else Z.min (currentMove g + 1) len).
  assert (0 ≤ k ≤ len) as Hk.
  { subst k. destruct (Z.ltb_spec (currentMove g + 1) 0); subst len; lia. }
  assert (length (take (Z.to_nat k) (history g)) = Z.to_nat k) as Hlen.
  { rewrite length_take. subst len. lia. }
  exists (Z.to_nat k). eexists. split; [reflexivity |]. simpl.
  rewrite length_app, Hlen. change (length [s]) with 1%nat.
  split_and!.
  - subst len. lia.
  - done.
  - lia.
  - unfold currentSquares, get_Z. simpl.
    destruct (Z.ltb_spec (Z.of_nat (Z.to_nat k + 1) - 1) 0) as [? | _]; [lia |].
    rewrite lookup_app_r by lia.
    rewrite Hlen. by replace (Z.to_nat (Z.of_nat (Z.to_nat k + 1) - 1)
                              - Z.to_nat k)%nat with 0%nat by lia.
  - intros Hbig. subst k.
    destruct (Z.ltb_spec (currentMove g + 1) 0); subst len; lia.
  - intros Hneg. subst k.
    destruct (Z.ltb_spec (currentMove g + 1) 0); subst len; lia.
  - intros Hm1. assert (k = 0) as Hk0.
    { subst k. rewrite Hm1. simpl. subst len. lia. }
    by rewrite Hk0.
Qed.

(** ** What is rendered *)

(** X5. [Board] lays the nine squares of the array out in three rows of
    three, in the order of the array: read row by row the squares show the
    array itself, and the square in place [k] passes [k] to [handleClick]. *)
Theorem Board_rows_row_major (sq : list value) :
  length sq = 9%nat →
  length (Board_rows sq) = 3%nat ∧
  Forall (λ row, length row = 3%nat) (Board_rows sq) ∧
  shown <$> concat (Board_rows sq) = sq ∧
  onSquareClick <$> concat (Board_rows sq) = seq 0 9.
Proof.
  intros Hlen. split_and!; [done | by repeat constructor | | done].
  do 9 (destruct sq as [| ? sq]; [done |]).
  by destruct sq.
Qed.

Lemma Board_rows_row_major_witness :
  shown <$> concat (Board_rows draw_board) = draw_board ∧
  onSquareClick <$> concat (Board_rows draw_board) = seq 0 9.
Proof.
  destruct (Board_rows_row_major draw_board) as (_ & _ & Hshown & Hclick);
    [reflexivity |].
  split; [exact Hshown | exact Hclick].
Defined.

Lemma description_inj k k' : description k = description k' → k = k'.
Proof.
  destruct k as [| k], k' as [| k']; simpl; [done | | |].
  - intros Heq. by apply (f_equal (λ s, String.get 6 s)) in Heq.
  - intros Heq. by apply (f_equal (λ s, String.get 6 s)) in Heq.
  - intros Heq. apply String.app_inj in Heq. by apply pretty_nat_inj in Heq.
Qed.

(** X6. The list of moves has one button per entry of [history]; the button
    in place [k] jumps to [k], which is inside [history], so that the jump
    leaves a snapshot to show; and no two buttons carry the same text. *)
Theorem moves_buttons (g : Game) :
  length (moves g) = length (history g) ∧
  (∀ k btn, moves g !! k = Some btn →
            target btn = Z.of_nat k
            ∧ 0 ≤ target btn < Z.of_nat (length (history g))
            ∧ currentSquares (jumpTo (target btn) g) = history g !! k) ∧
  (∀ k k' btn btn', moves g !! k = Some btn → moves g !! k' = Some btn' →
                    desc btn = desc btn' → k = k').
Proof.
  unfold moves. split_and!.
  - apply length_imap.
  - intros k btn Hk. rewrite list_lookup_imap in Hk.
    destruct (history g !! k) as [r |] eqn:Hr; [| done].
    injection Hk as <-. simpl. pose proof (lookup_lt_Some _ _ _ Hr).
    split_and!; [done | lia | lia |].
    unfold currentSquares. simpl. rewrite get_Z_nonneg by lia.
    by rewrite Nat2Z.id.
  - intros k k' btn btn' Hk Hk' Heq. rewrite list_lookup_imap in Hk, Hk'.
    destruct (history g !! k); [| done]. destruct (history g !! k'); [| done].
    injection Hk as <-. injection Hk' as <-. simpl in Heq.
    by apply description_inj.
Qed.

(** X7. In every state reached by clicks on squares and by the buttons of
    the list of moves, [currentMove] is inside [history], the array on
    display is a snapshot of nine slots, the page renders, and a click on
    any of the nine squares returns: the TypeError of reading a square of
    [undefined] never happens. *)
Theorem reachable_renders (σ : heap * Game) :
  reachable σ →
  0 ≤ currentMove σ.2 < Z.of_nat (length (history σ.2)) ∧
  (∃ b, current_board σ = Some b ∧ snapshot b ∧
        Game_render σ
          = Some (status (xIsNext_of σ.2) b, Board_rows b, moves σ.2)) ∧
  ∀ i, (i < 9)%nat → ∃ σ', click i σ = Some σ' ∧ reachable σ'.
Proof.
  intros Hr. destruct (reachable_wf_linked σ Hr) as [Hwf _].
  destruct (wf_current σ Hwf) as (r & b & _ & Hcur & Hb & Hsnap).
  pose proof Hwf as [Hcm _].
  split; [exact Hcm |]. split.
  - exists b. unfold current_board, Game_render. rewrite Hcur. simpl.
    split_and!; [done | done |]. by rewrite Hb.
  - intros i Hi. destruct (reachable_click_total σ i Hr Hi) as [σ' Hclick].
    exists σ'. split; [done |]. by eapply reachable_click.
Qed.

Lemma reachable_renders_witness :
  ∃ b, current_board session_example = Some b ∧ snapshot b ∧
       Game_render session_example
         = Some (status (xIsNext_of session_example.2) b, Board_rows b,
                 moves session_example.2).
Proof.
  destruct (reachable_renders session_example) as (_ & Hrender & _);
    [apply reachable_session_example | exact Hrender].
Defined.

(** X8. After a jump to an index outside [history], which [jumpTo] allows,
    there is no array to show: rendering throws, and so does any click. *)
Theorem render_throws_out_of_range (σ : heap * Game) (k : Z) :
  k < 0 ∨ Z.of_nat (length (history σ.2)) ≤ k →
  Game_render (jump k σ) = None ∧ ∀ i, click i (jump k σ) = None.
Proof.
  intros Hk.
  assert (currentSquares (jumpTo k σ.2) = None) as Hnone.
  { unfold currentSquares, get_Z. simpl.
    destruct (Z.ltb_spec k 0) as [_ | Hge]; [done |].
    apply lookup_ge_None_2. lia. }
  split.
  - unfold Game_render, Board. simpl. by rewrite Hnone.
  - intros i. unfold jump, click. by rewrite Hnone.
Qed.

Lemma render_throws_out_of_range_witness :
  Game_render (jump 1 init) = None ∧ ∀ i, click i (jump 1 init) = None.
Proof. apply (render_throws_out_of_range init 1). right. simpl. lia. Defined.

(** ** Clicks within a session *)

(** A click on the snapshot [b] on display: why it is rejected, or the
    state it leads to. *)
Lemma click_on_board σ i b :
  wf σ → (i < 9)%nat → current_board σ = Some b →
  snapshot b ∧
  (((mark (calculateWinner b) ∨ (∃ m, mark m ∧ b !! i = Some m))
    ∧ click i σ = Some σ)
   ∨ (calculateWinner b = Null ∧ b !! i = Some Null
      ∧ click i σ = Some (moved i b σ))).
Proof.
  intros Hwf Hi Hcur.
  destruct (wf_current σ Hwf) as (r & b' & Hr & Hsq & Hb' & Hsnap).
  unfold current_board in Hcur. rewrite Hsq in Hcur. simpl in Hcur.
  assert (b' = b) as -> by congruence. split; [done |].
  destruct σ as [h g]; simpl in *. rewrite Hsq. simpl.
  destruct (handleClick_two_cases i b Hsnap Hi) as [Hocc | [Hn Hfree]].
  - left. split; [done |]. by apply (handleClick_rejects _ _ _ _ _ _ b).
  - right. split_and!; try done.
    rewrite (handleClick_plays _ _ _ _ _ _ b) by done.
    unfold handlePlay, moved. simpl.
    destruct Hwf as [Hcm _]; simpl in Hcm.
    rewrite slice0_in_range by done. do 3 f_equal.
    rewrite length_app, length_take. change (length [length h]) with 1%nat. lia.
Qed.

(** X9. In a reachable state a click on a square leaves the whole state as
    it was exactly when the snapshot on display has a winner or the square
    holds a mark; any other click is a move, which adds one entry to the
    part of [history] up to [currentMove] and steps [currentMove] to it. *)
Theorem click_rejected_iff (σ : heap * Game) (i : nat) (b : list value) :
  reachable σ → (i < 9)%nat → current_board σ = Some b →
  (click i σ = Some σ ↔
   mark (calculateWinner b) ∨ (∃ m, mark m ∧ b !! i = Some m)) ∧
  (click i σ ≠ Some σ →
   ∃ σ', click i σ = Some σ'
         ∧ currentMove σ'.2 = currentMove σ.2 + 1
         ∧ Z.of_nat (length (history σ'.2)) = currentMove σ.2 + 2).
Proof.
  intros Hr Hi Hcur. destruct (reachable_wf_linked σ Hr) as [Hwf _].
  destruct (click_on_board σ i b Hwf Hi Hcur)
    as [Hsnap [[Hwhy Hsame] | (Hn & Hfree & Hmove)]].
  - split; [done |]. by intros Hne.
  - split.
    + split.
      * intros Hsame. rewrite Hmove in Hsame. injection Hsame as Heq.
        by apply moved_neq in Heq.
      * intros [Hw | (m & Hm & Hbi)].
        -- rewrite Hn in Hw. by destruct Hw.
        -- rewrite Hfree in Hbi. injection Hbi as <-. by destruct Hm.
    + intros _. exists (moved i b σ). split; [done |].
      rewrite length_history_moved by done. destruct Hwf as [Hcm _].
      simpl. lia.
Qed.

Lemma click_rejected_iff_witness :
  click 0 two_moves = Some two_moves ↔
  mark (calculateWinner (<[4%nat := O]> (<[0%nat := X]> empty_board)))
  ∨ (∃ m, mark m
          ∧ <[4%nat := O]> (<[0%nat := X]> empty_board) !! 0%nat = Some m).
Proof.
  destruct (click_rejected_iff two_moves 0
              (<[4%nat := O]> (<[0%nat := X]> empty_board)))
    as [Hiff _];
    [apply (plays_reachable 2), plays_two_moves | lia | reflexivity
    | exact Hiff].
Defined.

(** X10. A jump back to where [currentMove] was before a click shows the
    snapshot that was on display before the click, with the same player to
    move: a move changes none of the entries up to [currentMove]. *)
Theorem click_then_jump_back (σ σ' : heap * Game) (i : nat) :
  reachable σ → (i < 9)%nat → click i σ = Some σ' →
  current_board (jump (currentMove σ.2) σ') = current_board σ ∧
  xIsNext_of (jump (currentMove σ.2) σ').2 = xIsNext_of σ.2 ∧
  0 ≤ currentMove σ.2 < Z.of_nat (length (history σ'.2)) ∧
  ∀ k, (k ≤ Z.to_nat (currentMove σ.2))%nat → board_at σ' k = board_at σ k.
Proof.
  intros Hr Hi Hclick. destruct (reachable_wf_linked σ Hr) as [Hwf _].
  destruct (click_cases σ i Hwf Hi)
    as (r & b & Hsq & Hb & Hsnap & [Hsame | (_ & _ & Hmove)]).
  - rewrite Hsame in Hclick. injection Hclick as <-.
    destruct σ as [h [hist cm]]. destruct Hwf as [Hcm _]. by simpl in *.
  - rewrite Hmove in Hclick. injection Hclick as <-.
    pose proof Hwf as [Hcm _].
    assert (∀ k, (k ≤ Z.to_nat (currentMove σ.2))%nat →
                 board_at (moved i b σ) k = board_at σ k) as Hkeep.
    { intros k Hk. by apply board_at_moved. }
    split; [| split; [done | split; [| done]]].
    + specialize (Hkeep (Z.to_nat (currentMove σ.2)) (le_n _)).
      unfold current_board, currentSquares, board_at in *. simpl in *.
      by rewrite !get_Z_nonneg by lia.
    + rewrite length_history_moved by done. lia.
Qed.

Lemma click_then_jump_back_witness :
  ∃ σ', click 8 two_moves = Some σ' ∧
        current_board (jump 2 σ') = current_board two_moves.
Proof.
  destruct (click 8 two_moves) as [σ' |] eqn:Hclick; [| discriminate Hclick].
  exists σ'. split; [reflexivity |].
  destruct (click_then_jump_back two_moves σ' 8) as [Hback _];
    [apply (plays_reachable 2), plays_two_moves | lia | exact Hclick
    | exact Hback].
Defined.

(** ** How the entries of the history follow one another *)

Lemma wf_board_at σ k b : wf σ → board_at σ k = Some b → snapshot b.
Proof.
  intros [_ Hall] Hk. unfold board_at in Hk.
  destruct (history σ.2 !! k) as [r |] eqn:Hr; [simpl in Hk | done].
  destruct (Hall _ _ Hr) as (b' & Hb' & Hsnap). congruence.
Qed.

Lemma board_at_is_Some σ k :
  wf σ → (k < length (history σ.2))%nat → is_Some (board_at σ k).
Proof.
  intros [_ Hall] Hk. destruct (lookup_lt_is_Some_2 _ _ Hk) as [r Hr].
  destruct (Hall _ _ Hr) as (b & Hb & _). exists b.
  unfold board_at. by rewrite Hr.
Qed.

Lemma board_at_lt σ k b :
  board_at σ k = Some b → (k < length (history σ.2))%nat.
Proof.
  unfold board_at. intros Hk.
  destruct (history σ.2 !! k) as [r |] eqn:Hr; [| done].
  by eapply lookup_lt_Some.
Qed.

Lemma nextPlayer_mover g :
  0 ≤ currentMove g →
  nextPlayer (xIsNext_of g) = mover (S (Z.to_nat (currentMove g))).
Proof.
  intros Hcm. unfold mover. rewrite xIsNext_of_even, Nat.even_succ.
  rewrite <- Nat.negb_even, <- even_of_nat, Z2Nat.id by done.
  by destruct (Z.even (currentMove g)).
Qed.

Lemma played_moved σ i b r :
  wf σ → played σ →
  history σ.2 !! Z.to_nat (currentMove σ.2) = Some r → σ.1 !! r = Some b →
  b !! i = Some Null → calculateWinner b = Null →
  played (moved i b σ).
Proof.
  intros Hwf Hp Hr Hb Hfree Hn k Hk. pose proof Hwf as [Hcm _].
  rewrite length_history_moved in Hk by done.
  destruct (decide (k ≤ Z.to_nat (currentMove σ.2))%nat) as [Hle | Hgt].
  - rewrite !board_at_moved by (done || lia). apply Hp. lia.
  - assert (k = S (Z.to_nat (currentMove σ.2))) as -> by lia.
    rewrite board_at_moved by (done || lia).
    rewrite board_at_moved_last by done.
    exists b, i. split_and!; [| done | done |].
    + unfold board_at. simpl. by rewrite Nat.sub_0_r, Hr.
    + by rewrite nextPlayer_mover by lia.
Qed.

Lemma reachable_played σ : reachable σ → played σ.
Proof.
  induction 1 as [| σ σ' i Hr IH Hi Hclick | σ k Hr IH Hk].
  - intros k Hk. simpl in Hk. lia.
  - destruct (reachable_wf_linked σ Hr) as [Hwf _].
    destruct (click_cases σ i Hwf Hi)
      as (r & b & Hsq & Hb & Hsnap & [Hsame | (Hn & Hfree & Hmove)]).
    + rewrite Hsame in Hclick. by injection Hclick as <-.
    + rewrite Hmove in Hclick. injection Hclick as <-.
      by eapply played_moved.
  - exact IH.
Qed.

(** On a snapshot without a winner no line is complete. *)
Lemma no_winner_no_complete b l m :
  snapshot b → calculateWinner b = Null → l ∈ lines → ¬ complete b l m.
Proof.
  intros Hb Hn Hl Hc.
  destruct (scan_hit lines b) as (l' & _ & Hhit & Heq).
  { exists l. split; [done |]. apply line_hit_complete; [done |].
    by rewrite (complete_get _ _ _ Hc). }
  apply line_hit_complete in Hhit as [Hm _]; [| done].
  unfold calculateWinner in Hn. rewrite <- Heq, Hn in Hm.
  by destruct Hm.
Qed.

(** X11. In a reachable state only the last entry of [history] can have a
    winner: every entry that has a successor is a snapshot on which
    [calculateWinner] returns [null]. *)
Theorem no_winner_before_last (σ : heap * Game) (k : nat) (b : list value) :
  reachable σ →
  (S k < length (history σ.2))%nat →
  board_at σ k = Some b →
  calculateWinner b = Null.
Proof.
  intros Hr Hk Hb.
  destruct (reachable_played σ Hr (S k)) as (prev & j & Hprev & _ & Hn & _);
    [lia |].
  simpl in Hprev. rewrite Nat.sub_0_r, Hb in Hprev. by injection Hprev as <-.
Qed.

Lemma no_winner_before_last_witness :
  calculateWinner (<[0%nat := X]> empty_board) = Null.
Proof.
  apply (no_winner_before_last session_example 1);
    [apply reachable_session_example | simpl; lia | reflexivity].
Defined.

(** ** Counting the marks of a snapshot *)

Lemma count_mark_cons m v b :
  count_mark m (v :: b)
  = ((if decide (v = m) then 1 else 0) + count_mark m b)%nat.
Proof.
  unfold count_mark. rewrite filter_cons. by destruct (decide (v = m)).
Qed.

Lemma count_mark_insert_same b j m :
  b !! j = Some Null → m ≠ Null →
  count_mark m (<[j := m]> b) = S (count_mark m b).
Proof.
  revert j. induction b as [| v b IH]; intros j Hj Hm; [done |].
  destruct j as [| j]; simpl in *.
  - injection Hj as ->. rewrite !count_mark_cons.
    rewrite decide_True, decide_False by done. lia.
  - rewrite !count_mark_cons, (IH j) by done. lia.
Qed.

Lemma count_mark_insert_other b j m m' :
  b !! j = Some Null → m' ≠ m → m' ≠ Null →
  count_mark m' (<[j := m]> b) = count_mark m' b.
Proof.
  revert j. induction b as [| v b IH]; intros j Hj Hne Hm'; [done |].
  destruct j as [| j]; simpl in *.
  - injection Hj as ->. rewrite !count_mark_cons.
    by rewrite !decide_False by done.
  - by rewrite !count_mark_cons, (IH j) by done.
Qed.

Lemma count_mark_X_O_le b : (count_mark X b + count_mark O b ≤ length b)%nat.
Proof.
  induction b as [| v b IH]; [done |]. rewrite !count_mark_cons. simpl.
  destruct (decide (v = X)) as [HX |], (decide (v = O)) as [HO |];
    [rewrite HX in HO; discriminate HO | lia ..].
Qed.

Lemma div2_succ_even k : Nat.even k = true → Nat.div2 (S k) = Nat.div2 k.
Proof.
  intros He. apply Nat.even_spec in He as [p ->].
  by rewrite Nat.div2_succ_double, Nat.div2_double.
Qed.

Lemma div2_succ_odd k : Nat.even k = false → Nat.div2 (S k) = S (Nat.div2 k).
Proof.
  intros He. rewrite <- Nat.negb_odd in He. apply negb_false_iff in He.
  apply Nat.odd_spec in He as [p ->].
  replace (S (2 * p + 1)) with (2 * S p)%nat by lia.
  replace (2 * p + 1)%nat with (S (2 * p)) by lia.
  by rewrite Nat.div2_succ_double, Nat.div2_double.
Qed.

Lemma mark_counts_played σ k b :
  wf σ → linked σ → played σ →
  board_at σ k = Some b →
  count_mark X b = Nat.div2 (S k) ∧ count_mark O b = Nat.div2 k.
Proof.
  intros Hwf [H0 _] Hp. revert b. induction k as [| k IH]; intros b Hb.
  - rewrite H0 in Hb. by injection Hb as <-.
  - destruct (Hp (S k)) as (prev & j & Hprev & Hfree & _ & Hcur).
    { pose proof (board_at_lt _ _ _ Hb). lia. }
    simpl in Hprev. rewrite Nat.sub_0_r in Hprev.
    rewrite Hb in Hcur. injection Hcur as ->.
    destruct (IH prev Hprev) as [HX HO].
    unfold mover. rewrite Nat.even_succ, <- Nat.negb_even.
    change (Nat.div2 (S (S k))) with (S (Nat.div2 k)).
    destruct (Nat.even k) eqn:He; cbn [negb].
    + rewrite count_mark_insert_same, count_mark_insert_other by done.
      by rewrite HX, HO, (div2_succ_even k He).
    + rewrite count_mark_insert_other, count_mark_insert_same by done.
      by rewrite HX, HO, (div2_succ_odd k He).
Qed.

(** X12. In a reachable state entry [k] of [history] holds [k] marks: the
    X of the odd moves and the O of the even ones, so that X has as many
    marks as O or one more. *)
Theorem mark_counts (σ : heap * Game) (k : nat) (b : list value) :
  reachable σ →
  board_at σ k = Some b →
  count_mark X b = Nat.div2 (S k) ∧
  count_mark O b = Nat.div2 k ∧
  (count_mark X b + count_mark O b = k)%nat ∧
  (count_mark O b ≤ count_mark X b ≤ S (count_mark O b))%nat.
Proof.
  intros Hr Hb. destruct (reachable_wf_linked σ Hr) as [Hwf Hl].
  destruct (mark_counts_played σ k b Hwf Hl (reachable_played σ Hr) Hb)
    as [HX HO].
  rewrite HX, HO. split; [done |]. split; [done |].
  destruct (Nat.even k) eqn:He.
  - rewrite (div2_succ_even k He).
    apply Nat.even_spec in He as [p ->]. rewrite Nat.div2_double. lia.
  - rewrite (div2_succ_odd k He).
    rewrite <- Nat.negb_odd in He. apply negb_false_iff in He.
    apply Nat.odd_spec in He as [p ->].
    replace (2 * p + 1)%nat with (S (2 * p)) by lia.
    rewrite Nat.div2_succ_double. lia.
Qed.

Lemma mark_counts_witness :
  count_mark X (<[2%nat := O]> (<[0%nat := X]> empty_board)) = 1%nat ∧
  count_mark O (<[2%nat := O]> (<[0%nat := X]> empty_board)) = 1%nat.
Proof.
  destruct (mark_counts session_example 2
              (<[2%nat := O]> (<[0%nat := X]> empty_board)))
    as (HX & HO & _);
    [apply reachable_session_example | reflexivity |].
  split; [exact HX | exact HO].
Defined.

(** X13. A session never holds more than ten snapshots: [history] has at
    most ten entries and [currentMove] is at most 9, since each entry after
    the first fills one more of the nine squares. *)
Theorem history_at_most_ten (σ : heap * Game) :
  reachable σ →
  (1 ≤ length (history σ.2) ≤ 10)%nat ∧ 0 ≤ currentMove σ.2 ≤ 9.
Proof.
  intros Hr. destruct (reachable_wf_linked σ Hr) as [Hwf Hl].
  pose proof Hwf as [Hcm _].
  assert (length (history σ.2) ≤ 10)%nat as Hlen; [| lia].
  destruct (length (history σ.2)) as [| n] eqn:Hn; [lia |].
  destruct (board_at_is_Some σ n Hwf) as [b Hb]; [lia |].
  destruct (mark_counts_played σ n b Hwf Hl (reachable_played σ Hr) Hb)
    as [HX HO].
  destruct (wf_board_at σ n b Hwf Hb) as [Hb9 _].
  pose proof (count_mark_X_O_le b) as Hle. rewrite HX, HO, Hb9 in Hle.
  destruct (Nat.even n) eqn:He.
  - rewrite (div2_succ_even n He) in Hle.
    apply Nat.even_spec in He as [p ->]. rewrite Nat.div2_double in Hle. lia.
  - rewrite (div2_succ_odd n He) in Hle.
    rewrite <- Nat.negb_odd in He. apply negb_false_iff in He.
    apply Nat.odd_spec in He as [p ->].
    replace (2 * p + 1)%nat with (S (2 * p)) in Hle by lia.
    rewrite Nat.div2_succ_double in Hle. lia.
Qed.

Lemma history_at_most_ten_witness :
  (1 ≤ length (history session_example.2) ≤ 10)%nat ∧
  0 ≤ currentMove session_example.2 ≤ 9.
Proof. apply (history_at_most_ten session_example), reachable_session_example. Defined.

(** ** Who wins, and when *)

Lemma complete_count b l m :
  length b = 9%nat → l ∈ lines → complete b l m → (3 ≤ count_mark m b)%nat.
Proof.
  intros Hlen Hl (_ & H1 & H2 & H3).
  do 9 (destruct b as [| ? b]; [done |]). destruct b; [| done].
  unfold lines in Hl.
  repeat (apply elem_of_cons in Hl as [-> | Hl]);
    [.. | by apply elem_of_nil in Hl];
    simpl in H1, H2, H3; simplify_eq;
    rewrite !count_mark_cons; rewrite !(decide_True (P := m = m)) by done;
    lia.
Qed.

Lemma div2_ge_3 n : (3 ≤ Nat.div2 n)%nat → (6 ≤ n)%nat.
Proof.
  intros H3. do 6 (destruct n as [| n]; [simpl in H3; lia |]). lia.
Qed.

Lemma complete_mover σ k b l m :
  wf σ → linked σ → played σ →
  board_at σ k = Some b → l ∈ lines → complete b l m →
  m = mover k ∧ (1 ≤ k)%nat.
Proof.
  intros Hwf [H0 _] Hp Hb Hl Hc. destruct k as [| k].
  - rewrite H0 in Hb. injection Hb as <-.
    destruct Hc as (Hm & H1 & _). apply lookup_replicate in H1 as [-> _].
    by destruct Hm.
  - split; [| lia].
    destruct (Hp (S k)) as (prev & j & Hprev & Hfree & Hn & Hcur).
    { pose proof (board_at_lt _ _ _ Hb). lia. }
    rewrite Hb in Hcur. injection Hcur as ->.
    pose proof (wf_board_at _ _ _ Hwf Hprev) as Hsnap.
    pose proof (lookup_lt_Some _ _ _ Hfree) as Hj.
    destruct Hc as (Hm & H1 & H2 & H3).
    destruct (decide (j = l.1.1)) as [-> | Hne1].
    { rewrite list_lookup_insert_eq in H1 by done. congruence. }
    destruct (decide (j = l.1.2)) as [-> | Hne2].
    { rewrite list_lookup_insert_eq in H2 by done. congruence. }
    destruct (decide (j = l.2)) as [-> | Hne3].
    { rewrite list_lookup_insert_eq in H3 by done. congruence. }
    rewrite list_lookup_insert_ne in H1, H2, H3 by done.
    by destruct (no_winner_no_complete prev l m Hsnap Hn Hl).
Qed.

(** X14. In a reachable state, a line of entry [k] of [history] that is
    filled by one mark is filled by the mark of the player who made move
    [k], X for odd [k] and O for even [k], and [calculateWinner] returns
    that mark.  So all complete lines of a snapshot hold the same mark, and
    there is none before move 5. *)
Theorem winner_is_last_mover (σ : heap * Game) (k : nat) (b : list value)
    (l : nat * nat * nat) (m : value) :
  reachable σ →
  board_at σ k = Some b → l ∈ lines → complete b l m →
  m = mover k ∧ calculateWinner b = m ∧ (5 ≤ k)%nat.
Proof.
  intros Hr Hb Hl Hc. destruct (reachable_wf_linked σ Hr) as [Hwf Hlk].
  pose proof (reachable_played σ Hr) as Hp.
  destruct (complete_mover σ k b l m Hwf Hlk Hp Hb Hl Hc) as [Hm _].
  pose proof (wf_board_at _ _ _ Hwf Hb) as Hsnap.
  split_and!; [done | |].
  - destruct (scan_hit lines b) as (l' & Hl' & Hhit & Heq).
    { exists l. split; [done |]. apply line_hit_complete; [done |].
      by rewrite (complete_get _ _ _ Hc). }
    apply line_hit_complete in Hhit; [| done].
    destruct (complete_mover σ k b l' _ Hwf Hlk Hp Hb Hl' Hhit) as [Hm' _].
    unfold calculateWinner. by rewrite Heq, Hm', Hm.
  - destruct Hsnap as [Hlen _].
    pose proof (complete_count b l m Hlen Hl Hc) as H3.
    destruct (mark_counts_played σ k b Hwf Hlk Hp Hb) as [HX HO].
    rewrite Hm in H3. unfold mover in H3.
    destruct (Nat.even k) eqn:He.
    + rewrite HO in H3. apply div2_ge_3 in H3. lia.
    + rewrite HX in H3. apply div2_ge_3 in H3. lia.
Qed.

Lemma winner_is_last_mover_witness :
  ∃ σ, run double_win_clicks init = Some σ
       ∧ X = mover 9 ∧ calculateWinner double_win_board = X.
Proof.
  destruct (run double_win_clicks init) as [σ |] eqn:Hrun;
    [| vm_compute in Hrun; discriminate Hrun].
  exists σ. split; [reflexivity |].
  destruct (winner_is_last_mover σ 9 double_win_board (0, 3, 6)%nat X)
    as (Hm & Hw & _).
  - by apply (run_reachable double_win_clicks init); [apply reachable_init |].
  - vm_compute in Hrun. injection Hrun as <-. reflexivity.
  - do 3 apply list_elem_of_further. apply list_elem_of_here.
  - split_and!; [by left | done | done | done].
  - split; [exact Hm | exact Hw].
Defined.

(** ** Marks stay, and entries are arrays of their own *)

(** X15. A mark on a square of an entry of [history] is on the same square
    of every later entry. *)
Theorem marks_persist (σ : heap * Game) (k k' j : nat) (b b' : list value)
    (m : value) :
  reachable σ → (k ≤ k')%nat →
  board_at σ k = Some b → board_at σ k' = Some b' →
  mark m → b !! j = Some m →
  b' !! j = Some m.
Proof.
  intros Hr Hle Hb Hb' Hm Hj. pose proof (reachable_played σ Hr) as Hp.
  revert b' Hb'. induction Hle as [| n Hle IH]; intros b' Hb'.
  - congruence.
  - destruct (Hp (S n)) as (prev & j0 & Hprev & Hfree & _ & Hcur).
    { pose proof (board_at_lt _ _ _ Hb'). lia. }
    simpl in Hprev. rewrite Nat.sub_0_r in Hprev.
    rewrite Hb' in Hcur. injection Hcur as ->.
    specialize (IH prev Hprev).
    rewrite list_lookup_insert_ne; [done |].
    intros <-. rewrite Hfree in IH. injection IH as <-. by destruct Hm.
Qed.

Lemma marks_persist_witness :
  <[2%nat := O]> (<[0%nat := X]> empty_board) !! 0%nat = Some X.
Proof.
  apply (marks_persist session_example 1 2 0 (<[0%nat := X]> empty_board) _ X);
    [apply reachable_session_example | lia | reflexivity | reflexivity
    | by left | reflexivity].
Defined.

Lemma reachable_NoDup σ : reachable σ → NoDup (history σ.2).
Proof.
  induction 1 as [| σ σ' i Hr IH Hi Hclick | σ k Hr IH Hk].
  - simpl. apply NoDup_singleton.
  - destruct (reachable_wf_linked σ Hr) as [Hwf _].
    destruct (click_cases σ i Hwf Hi)
      as (r & b & _ & _ & _ & [Hsame | (_ & _ & Hmove)]).
    + rewrite Hsame in Hclick. by injection Hclick as <-.
    + rewrite Hmove in Hclick. injection Hclick as <-. simpl.
      apply NoDup_app. split_and!.
      * eapply sublist_NoDup; [exact IH | apply sublist_take].
      * intros x Hx Hin. apply list_elem_of_singleton in Hin as ->.
        apply elem_of_take in Hx as (n & Hn & _).
        destruct Hwf as [_ Hall]. destruct (Hall _ _ Hn) as (b0 & Hb0 & _).
        apply lookup_lt_Some in Hb0. lia.
      * apply NoDup_singleton.
  - exact IH.
Qed.

(** X16. In a reachable state no two entries of [history] are the same
    array: each entry is an array object of its own, which is on the heap
    and holds a snapshot. *)
Theorem history_distinct (σ : heap * Game) (k k' : nat) (r : nat) :
  reachable σ →
  history σ.2 !! k = Some r → history σ.2 !! k' = Some r →
  k = k' ∧ ∃ b, σ.1 !! r = Some b ∧ snapshot b.
Proof.
  intros Hr Hk Hk'. split.
  - by eapply NoDup_lookup; [apply reachable_NoDup | |].
  - destruct (reachable_wf_linked σ Hr) as [[_ Hall] _]. by eapply Hall.
Qed.

Lemma history_distinct_witness :
  2%nat = 2%nat ∧ ∃ b, session_example.1 !! 3%nat = Some b ∧ snapshot b.
Proof.
  apply (history_distinct session_example 2 2 3);
    [apply reachable_session_example | reflexivity | reflexivity].
Defined.

(** ** The full board *)

Lemma count_full b :
  (count_mark X b + count_mark O b = length b)%nat → Forall mark b.
Proof.
  induction b as [| v b IH]; [constructor |].
  rewrite !count_mark_cons. simpl. pose proof (count_mark_X_O_le b) as Hle.
  destruct (decide (v = X)) as [HX |], (decide (v = O)) as [HO |]; intros Hc.
  - rewrite HX in HO. discriminate HO.
  - constructor; [by left | apply IH; lia].
  - constructor; [by right | apply IH; lia].
  - lia.
Qed.

Lemma current_board_at σ :
  0 ≤ currentMove σ.2 →
  current_board σ = board_at σ (Z.to_nat (currentMove σ.2)).
Proof.
  intros Hcm. unfold current_board, board_at, currentSquares.
  by rewrite get_Z_nonneg.
Qed.

(** X17. After nine moves the snapshot on display has a mark on every
    square and no click changes anything any more.  A draw is not told
    apart from a game in progress: without a winner the status line still
    reads ["Next player: O"]. *)
Theorem full_board_frozen (σ : heap * Game) (b : list value) :
  reachable σ → currentMove σ.2 = 9 → current_board σ = Some b →
  Forall mark b ∧
  (∀ i, (i < 9)%nat → click i σ = Some σ) ∧
  (calculateWinner b = Null →
   status (xIsNext_of σ.2) b = "Next player: O").
Proof.
  intros Hr Hcm Hcur. destruct (reachable_wf_linked σ Hr) as [Hwf Hl].
  pose proof Hcur as Hat. rewrite current_board_at, Hcm in Hat by lia.
  destruct (mark_counts_played σ _ b Hwf Hl (reachable_played σ Hr) Hat)
    as [HX HO].
  destruct (wf_board_at σ _ b Hwf Hat) as [Hlen _].
  assert (Forall mark b) as Hfull.
  { apply count_full. rewrite HX, HO, Hlen. reflexivity. }
  split_and!; [done | |].
  - intros i Hi.
    destruct (click_on_board σ i b Hwf Hi Hcur)
      as [_ [[_ Hsame] | (_ & Hfree & _)]]; [done |].
    rewrite Forall_forall in Hfull.
    destruct (Hfull Null) as [Hm | Hm]; [| done | done].
    by eapply list_elem_of_lookup_2.
  - intros Hn. unfold status, xIsNext_of. by rewrite Hn, Hcm.
Qed.

Lemma full_board_frozen_witness :
  ∃ σ, run draw_clicks init = Some σ
       ∧ current_board σ = Some draw_board
       ∧ click 4 σ = Some σ
       ∧ status (xIsNext_of σ.2) draw_board = "Next player: O".
Proof.
  destruct (run draw_clicks init) as [σ |] eqn:Hrun;
    [| vm_compute in Hrun; discriminate Hrun].
  assert (reachable σ) as Hr
    by (by apply (run_reachable draw_clicks init); [apply reachable_init |]).
  vm_compute in Hrun. injection Hrun as Hσ.
  assert (currentMove σ.2 = 9) as Hcm by (by rewrite <- Hσ).
  assert (current_board σ = Some draw_board) as Hcur by (by rewrite <- Hσ).
  destruct (full_board_frozen σ draw_board Hr Hcm Hcur) as (_ & Hclick & Hst).
  exists σ. split_and!; [reflexivity | exact Hcur | apply Hclick; lia |].
  apply Hst. reflexivity.
Defined.
